(** * ProAct.js: properties, streams and reactive arrays

    A shallow embedding of [src/js/properties/property.js],
    [src/js/streams/stream.js] and the [ProAct.Array] prototype, with the
    scheduler ([ProAct.flow]) and the [ProAct.Actor] base class modelled
    from their specification where their code is not part of the sources. *)

From stdpp Require Import gmap strings list fin_maps.

(** ** JavaScript values *)

(** Functions, arrays and objects are references; [===] on them is identity. *)
Inductive Value :=
| VUndefined
| VNull
| VBool (b : bool)
| VNum (n : Z)
| VNaN
| VStr (s : string)
| VFun (f : nat)
| VArr (a : nat)
| VObj (o : nat)
| VError (name : string).   (* a built-in error object *)

Global Instance Value_eq_dec : EqDecision Value.
Proof. solve_decision. Defined.

(** [a === b]: [NaN] is the one value that is not equal to itself. *)
Definition strict_eq (a b : Value) : bool :=
  match a, b with
  | VNaN, _ | _, VNaN => false
  | _, _ => bool_decide (a = b)
  end.

(** ** Exceptions and the state monad of a call *)

(** What is thrown is a value. *)
Definition TypeError : Value := VError "TypeError".  (* a member access on [undefined] *)
Definition Misuse : Value := VError "Error".         (* a structural misuse, reported at once *)

Inductive Result (A : Type) :=
| Ret (a : A)
| Throw (e : Value).
Arguments Ret {A} a.
Arguments Throw {A} e.

(** A JavaScript call reads and mutates the store [St]; an exception keeps
    the mutations made so far. *)
Definition M (St A : Type) : Type := St → Result A * St.

Global Instance M_ret {St} : MRet (M St) := λ A a s, (Ret a, s).
Global Instance M_bind {St} : MBind (M St) := λ A B k c s,
  match c s with
  | (Ret a, s') => k a s'
  | (Throw e, s') => (Throw e, s')
  end.

Definition throw {St A} (e : Value) : M St A := λ s, (Throw e, s).
Definition gets {St A} (f : St → A) : M St A := λ s, (Ret (f s), s).
Definition modify {St} (f : St → St) : M St unit := λ s, (Ret tt, f s).
Definition try_catch {St A} (c : M St A) (h : Value → M St A) : M St A := λ s,
  match c s with
  | (Ret a, s') => (Ret a, s')
  | (Throw e, s') => h e s'
  end.

(** [for (i = 0; i < ls.length; i++) body(ls[i])] *)
Fixpoint for_each {St A} (body : A → M St unit) (ls : list A) : M St unit :=
  match ls with
  | [] => mret tt
  | x :: ls' => body x;; for_each body ls'
  end.

(** [while (delta--) body(k)], for a counter that starts at [delta >= 0];
    [k] counts the iterations already made. *)
Fixpoint repeat_n {St} (delta : nat) (k : nat) (body : nat → M St unit) : M St unit :=
  match delta with
  | O => mret tt
  | S d => body k;; repeat_n d (S k) body
  end.

Ltac unfold_monad :=
  unfold mbind, mret, M_bind, M_ret, throw, gets, modify, try_catch in *.

(** ** Listeners *)

(** A listener is a function, or an object with a [call] method; either
    may carry a [property] back-reference to the Property that owns it. *)
Module Listener.
Record t := {
  ref : nat;               (* identity of the listener *)
  callable : bool;         (* [P.U.isFunction(listener)] *)
  call : nat;              (* identity of [listener.call] *)
  property : option nat;   (* [listener.property] *)
}.

Global Instance eq_dec : EqDecision t.
Proof. solve_decision. Defined.

(** The receiver and the function of the invocation a listener is deferred
    as: [(null, listener)] for a function, [(listener, listener.call)] for
    an object. *)
Definition target (l : t) : option nat * nat :=
  if callable l then (None, ref l) else (Some (ref l), call l).
End Listener.

(** ** The scheduler *)

Module Flow.
Section flow.
Context {A : Type}.

(** A pending call [method.apply(obj, args)]. *)
Record Invocation := {
  obj : option nat;
  method : nat;
  args : A;
}.

Definition key (i : Invocation) : option nat * nat := (obj i, method i).

(** Modelled from the spec: the queue of [ProAct.flow] is not part of the
    sources. [push] appends unconditionally. *)
Definition push (o : option nat) (m : nat) (a : A)
    (q : list Invocation) : list Invocation :=
  q ++ [{| obj := o; method := m; args := a |}].

(** Modelled from the spec: [pushOnce] appends only if no pending entry
    targets the same invocation (same receiver, same function); otherwise
    the arguments of the pending entry are replaced in place and its
    position is unchanged. *)
Fixpoint pushOnce (o : option nat) (m : nat) (a : A)
    (q : list Invocation) : list Invocation :=
  match q with
  | [] => [{| obj := o; method := m; args := a |}]
  | i :: q' =>
      if bool_decide (key i = (o, m))
      then {| obj := o; method := m; args := a |} :: q'
      else i :: pushOnce o m a q'
  end.

(** The scheduling state: whether a run is open, the invocations pending
    in its queue, and the invocations executed so far, in order. *)
Record t := {
  running : bool;
  pending : list Invocation;
  delivered : list Invocation;
}.

Definition isRunning (f : t) : bool := running f.

(** The invocations that were executed or are pending. *)
Definition scheduled (f : t) : list Invocation := delivered f ++ pending f.

(** Modelled from the spec: [flush] executes the pending entries strictly
    in enqueue order, then clears the queue. It returns the executed
    invocations. *)
Definition flush (f : t) : list Invocation * t :=
  (pending f,
   {| running := running f; pending := [];
      delivered := delivered f ++ pending f |}).

(** Modelled from the spec: opening a run allocates its queue, closing it
    ends the run. *)
Definition open (f : t) : t :=
  {| running := true; pending := []; delivered := delivered f |}.

Definition close (f : t) : t :=
  {| running := false; pending := pending f; delivered := delivered f |}.

(** [push] or [pushOnce] on the queue of the run. *)
Definition enqueue (once : bool) (o : option nat) (m : nat) (a : A) (f : t) : t :=
  {| running := running f;
     pending := (if once then pushOnce else push) o m a (pending f);
     delivered := delivered f |}.

(** The queue after a series of [pushOnce] requests, each for a target and
    with arguments. *)
Definition enqueue_all (reqs : list ((option nat * nat) * A))
    (q : list Invocation) : list Invocation :=
  foldl (λ q r, pushOnce (fst (fst r)) (snd (fst r)) (snd r) q) q reqs.

(** The invocations of a queue that target [k]. *)
Definition pending_for (k : option nat * nat)
    (q : list Invocation) : list Invocation :=
  filter (λ i, key i = k) q.
End flow.
Arguments Invocation : clear implicits.
Arguments t : clear implicits.
End Flow.

(** The scheduler as seen from a store [St] that holds it. *)
Section flow_ops.
Context {St A : Type}.
Variable get_flow : St → Flow.t A.
Variable set_flow : Flow.t A → St → St.

(** Modelled from the spec: [P.flow.push] and [P.flow.pushOnce] are not
    part of the sources; they may be called only while a run is open. *)
Definition flow_enqueue (once : bool) (o : option nat) (m : nat) (a : A)
    : M St unit :=
  λ s, if Flow.isRunning (get_flow s)
       then (Ret tt, set_flow (Flow.enqueue once o m a (get_flow s)) s)
       else (Throw Misuse, s).

(** Modelled from the spec: [P.flow.run(body)] is not part of the sources.
    It opens a run if none is open, executes [body], flushes and closes the
    run; a nested call executes [body] inline. *)
Definition flow_run (body : M St unit) : M St unit :=
  λ s, if Flow.isRunning (get_flow s) then body s
       else
         match body (set_flow (Flow.open (get_flow s)) s) with
         | (Ret _, s') =>
             (Ret tt, set_flow (Flow.close (snd (Flow.flush (get_flow s')))) s')
         | (Throw e, s') => (Throw e, s')
         end.
End flow_ops.

(** The flow after [P.flow.run] of a body that asks for the [pushOnce]
    requests [reqs]: inside a run they are pending, outside of a run they
    have been delivered and the flow is idle again. *)
Definition published {A} (reqs : list ((option nat * nat) * A))
    (f : Flow.t A) : Flow.t A :=
  if Flow.running f
  then {| Flow.running := true;
          Flow.pending := Flow.enqueue_all reqs (Flow.pending f);
          Flow.delivered := Flow.delivered f |}
  else {| Flow.running := false;
          Flow.pending := [];
          Flow.delivered := Flow.delivered f ++ Flow.enqueue_all reqs [] |}.

(** ** ProAct.Utils: the difference of two arrays *)

Module U.

(** One step of an edit script that turns an old array into a new one. *)
Inductive Edit :=
| Keep (v : Value)   (* the element stays *)
| Del (v : Value)    (* the element of the old array is removed *)
| Ins (v : Value).   (* the element of the new array is inserted *)

(** The number of removed and inserted elements. *)
Fixpoint cost (s : list Edit) : nat :=
  match s with
  | [] => 0
  | Keep _ :: s' => cost s'
  | _ :: s' => S (cost s')
  end.


(** Modelled from the spec: [P.U.diff] is not part of the sources. An edit
    script of minimal cost, by aligning the two arrays on a longest common
    subsequence; elements are compared with [===]. *)
Fixpoint script (old : list Value) : list Value → list Edit :=
  match old with
  | [] => map Ins
  | x :: old' =>
      fix aligned (new : list Value) : list Edit :=
        match new with
        | [] => map Del (x :: old')
        | y :: new' =>
            if strict_eq x y then Keep x :: script old' new'
            else
              let removed := Del x :: script old' new in
              let inserted := Ins y :: aligned new' in
              if bool_decide (cost removed ≤ cost inserted)
              then removed else inserted
        end
  end.

(** A contiguous changed region: the elements it removes and the elements
    it inserts. *)
Record Change := {
  o : list Value;
  n : list Value;
}.

Definition removing (v : Value) (c : option Change) : Change :=
  match c with
  | Some c => {| o := o c ++ [v]; n := n c |}
  | None => {| o := [v]; n := [] |}
  end.

Definition inserting (v : Value) (c : option Change) : Change :=
  match c with
  | Some c => {| o := o c; n := n c ++ [v] |}
  | None => {| o := []; n := [v] |}
  end.

(** The regions of a script, each under the index it starts at; [i] is the
    start of the open region [cur], or the current index when none is
    open. *)
Fixpoint regions (i : nat) (cur : option Change) (s : list Edit)
    : list (nat * Change) :=
  match s with
  | [] => match cur with Some c => [(i, c)] | None => [] end
  | Keep _ :: s' =>
      match cur with
      | Some c => (i, c) :: regions (i + length (n c) + 1) None s'
      | None => regions (i + 1) None s'
      end
  | Del v :: s' => regions i (Some (removing v cur)) s'
  | Ins v :: s' => regions i (Some (inserting v cur)) s'
  end.

(** Modelled from the spec: the minimal set of contiguous splice operations
    that transforms [old] into [new], in ascending order of their index. *)
Definition diff (old new : list Value) : list (nat * Change) :=
  regions 0 None (script old new).



End U.

(** ** ProAct.Array *)

Module PArray.

(** [ProAct.Array.Operations] *)
Module Operations.
Definition set : Z := 0.
Definition add : Z := 1.
Definition remove : Z := 2.
Definition setLength : Z := 3.
Definition reverse : Z := 4.
Definition sort : Z := 5.
Definition splice : Z := 6.

Definition isIndexOp (op : Z) : bool :=
  bool_decide (op = set) || bool_decide (op = reverse) || bool_decide (op = sort).
End Operations.

(** The old and new value slots of an array event: [null], one element, or
    an array of elements. *)
Inductive Payload :=
| PNull
| PVal (v : Value)
| PArr (l : list Value).

(** Modelled from the spec: [ArrayCore.makeEvent] is not part of the
    sources; the event it makes for [(null, [op, ind, oldVal, newVal])] has
    no source and carries the four arguments. *)
Record Event := {
  op : Z;
  ind : Z;
  oldVal : Payload;
  newVal : Payload;
}.

Definition makeEvent (op ind : Z) (oldVal newVal : Payload) : Event :=
  {| op := op; ind := ind; oldVal := oldVal; newVal := newVal |}.

(** What a call does to the array object and to its listeners, in order. *)
Inductive Effect :=
| EDefine (i : Z)     (* the index accessor [this[i]] is defined *)
| EDelete (i : Z)     (* [delete this[i]] *)
| EEmit (ev : Event). (* an update is handed to the listeners *)

Record State := {
  _array : list Value;                (* [this._array] *)
  indices : gset Z;                   (* the index accessors of [this] *)
  index_listeners : list Listener.t;    (* [this.__pro__.listeners.index] *)
  length_listeners : list Listener.t;   (* [this.__pro__.listeners.length] *)
  flow : Flow.t Event;                (* [P.flow] *)
  updated : list (nat * Event);       (* [listener.property.update(event)] calls *)
  log : list Effect;
}.

Definition with_array (a : list Value) (s : State) : State :=
  {| _array := a; indices := indices s; index_listeners := index_listeners s;
     length_listeners := length_listeners s; flow := flow s;
     updated := updated s; log := log s |}.

Definition with_indices (i : gset Z) (s : State) : State :=
  {| _array := _array s; indices := i; index_listeners := index_listeners s;
     length_listeners := length_listeners s; flow := flow s;
     updated := updated s; log := log s |}.

Definition with_flow (f : Flow.t Event) (s : State) : State :=
  {| _array := _array s; indices := indices s; index_listeners := index_listeners s;
     length_listeners := length_listeners s; flow := f;
     updated := updated s; log := log s |}.

Definition with_updated (u : list (nat * Event)) (s : State) : State :=
  {| _array := _array s; indices := indices s; index_listeners := index_listeners s;
     length_listeners := length_listeners s; flow := flow s;
     updated := u; log := log s |}.

Definition with_log (l : list Effect) (s : State) : State :=
  {| _array := _array s; indices := indices s; index_listeners := index_listeners s;
     length_listeners := length_listeners s; flow := flow s;
     updated := updated s; log := l |}.

Definition emit (e : Effect) : M State unit :=
  modify (λ s, with_log (log s ++ [e]) s).

Definition len : M State Z := gets (λ s, Z.of_nat (length (_array s))).

(** Modelled from the spec: [ArrayCore.defineIndexProp] is not part of the
    sources; it materializes the index cell [this[i]]. *)
Definition defineIndexProp (i : Z) : M State unit :=
  modify (λ s, with_indices (indices s ∪ {[i]}) s);; emit (EDefine i).

(** [delete this[i]] *)
Definition delete_index (i : Z) : M State unit :=
  modify (λ s, with_indices (indices s ∖ {[i]}) s);; emit (EDelete i).

(** Modelled from the spec: [Property.update] of the property that owns a
    listener belongs to [ProAct.Actor], which is not part of the sources;
    the call is recorded. *)
Definition property_update (p : nat) (ev : Event) : M State unit :=
  modify (λ s, with_updated (updated s ++ [(p, ev)]) s).

Definition pushOnce (o : option nat) (m : nat) (ev : Event) : M State unit :=
  flow_enqueue flow with_flow true o m ev.

(** The body of the loop of [willUpdateListeners], lines 81-91 *)
Definition defer_listener (event : Event) (listener : Listener.t) : M State unit :=
  (if Listener.callable listener
   then pushOnce None (Listener.ref listener) event
   else pushOnce (Some (Listener.ref listener)) (Listener.call listener) event);;
  match Listener.property listener with
  | Some p => property_update p event
  | None => mret tt
  end.

(** [willUpdateListeners], lines 76-93 *)
Definition willUpdateListeners (listeners : list Listener.t) (op ind : Z)
    (oldVal newVal : Payload) : M State unit :=
  let event := makeEvent op ind oldVal newVal in
  emit (EEmit event);;
  for_each (defer_listener event) listeners.

(** [willUpdateSplice], lines 49-65; [None] is a [null] or [undefined]
    argument. *)
Definition willUpdateSplice (index : Z) (spliced newItems : option (list Value))
    : M State unit :=
  match spliced, newItems with
  | Some spliced, Some newItems =>
      if bool_decide (length spliced = 0) && bool_decide (length newItems = 0)
      then mret tt
      else
        listeners ← gets (λ s,
          if bool_decide (length spliced = length newItems)
          then index_listeners s
          else if bool_decide (length newItems = 0) || bool_decide (length spliced = 0)
          then length_listeners s
          else length_listeners s ++ index_listeners s);
        willUpdateListeners listeners Operations.splice index
          (PArr spliced) (PArr newItems)
  | _, _ => mret tt
  end.

(** [updateSplice], lines 66-75 *)
Definition updateSplice (index : Z) (sliced newItems : option (list Value))
    : M State unit :=
  running ← gets (λ s, Flow.isRunning (flow s));
  if (running : bool) then willUpdateSplice index sliced newItems
  else flow_run flow with_flow (willUpdateSplice index sliced newItems).

(** Modelled from the spec: [ArrayCore.update] is not part of the sources.
    It enqueues one update through the flow: the index-scoped listeners for
    an operation that only replaces values at existing indices, the
    length-scoped listeners otherwise. *)
Definition core_update (op ind : Z) (oldVal newVal : Payload) : M State unit :=
  flow_run flow with_flow
    (listeners ← gets (λ s, if Operations.isIndexOp op
                            then index_listeners s else length_listeners s);
     willUpdateListeners listeners op ind oldVal newVal).

(** What a method of the array returns. *)
Inductive Returned :=
| RUndefined
| RVal (v : Value)
| RNum (n : Z)
| RArray (l : list Value).

(** *** The built-ins of [Array.prototype] on integer arguments *)

(** [Array.prototype.splice(start, deleteCount, ...items)]; [deleteCount]
    is [None] when the call has one argument. Returns the removed elements
    and the new contents. *)
Definition js_splice (a : list Value) (start : Z) (deleteCount : option Z)
    (items : list Value) : list Value * list Value :=
  let len := Z.of_nat (length a) in
  let actualStart :=
    if (start <? 0)%Z then Z.max (len + start) 0 else Z.min start len in
  let actualDeleteCount :=
    match deleteCount with
    | None => (len - actualStart)%Z
    | Some d => Z.min (Z.max d 0) (len - actualStart)
    end in
  let s := Z.to_nat actualStart in
  let d := Z.to_nat actualDeleteCount in
  (take d (drop s a), take s a ++ items ++ drop (s + d) a).

(** [ToInt32] and the bitwise not [~n] *)
Definition toInt32 (n : Z) : Z :=
  let m := (n mod 2 ^ 32)%Z in
  if (m <? 2 ^ 31)%Z then m else (m - 2 ^ 32)%Z.

Definition bitnot (n : Z) : Z := Z.lnot (toInt32 n).

(** *** The mutating methods *)

(** The arguments of a [splice(index, howMany, ...newItems)] call. *)
Inductive SpliceArgs :=
| FromIndex (index : Z)                                  (* [splice(index)] *)
| Range (index howMany : Z) (newItems : list Value).

Definition splice_index (a : SpliceArgs) : Z :=
  match a with FromIndex i | Range i _ _ => i end.
Definition splice_howMany (a : SpliceArgs) : option Z :=
  match a with FromIndex _ => None | Range _ h _ => Some h end.
Definition splice_newItems (a : SpliceArgs) : list Value :=
  match a with FromIndex _ => [] | Range _ _ n => n end.

(** [splice], lines 262-285 *)
Definition splice (a : SpliceArgs) : M State Returned :=
  oldLn ← len;
  arr ← gets _array;
  let '(spliced, arr') :=
    js_splice arr (splice_index a) (splice_howMany a) (splice_newItems a) in
  modify (with_array arr');;
  ln ← len;
  let newItems := splice_newItems a in
  let index :=
    if bool_decide (bitnot (splice_index a) = 0%Z)
    then ((ln : Z) - splice_index a)%Z else splice_index a in
  let howMany :=
    match splice_howMany a with
    | None => (ln - index)%Z
    | Some h => h
    end in
  (if bool_decide (howMany < Z.of_nat (length newItems))%Z then
     repeat_n (Z.to_nat (Z.of_nat (length newItems) - howMany)) 0
       (λ k, defineIndexProp ((oldLn : Z) + Z.of_nat k)%Z)
   else if bool_decide (Z.of_nat (length newItems) < howMany)%Z then
     repeat_n (Z.to_nat (howMany - Z.of_nat (length newItems))) 0
       (λ k, delete_index ((oldLn : Z) - 1 - Z.of_nat k)%Z)
   else mret tt);;
  updateSplice index (Some spliced) (Some newItems);;
  mret (RArray spliced).

(** [pop], lines 286-297 *)
Definition pop : M State Returned :=
  arr ← gets _array;
  if bool_decide (length (arr : list Value) = 0) then mret RUndefined
  else
    let popped := default VUndefined (last arr) in
    modify (with_array (take (length arr - 1) arr));;
    index ← len;
    delete_index index;;
    ln ← len;
    core_update Operations.remove ln (PVal popped) PNull;;
    mret (RVal popped).

(** The body of the loop of [push], lines 303-305 *)
Definition push_one (v : Value) : M State unit :=
  index ← len;
  modify (λ s, with_array (_array s ++ [v]) s);;
  defineIndexProp index.

(** [push], lines 298-311 *)
Definition push (vals : list Value) : M State Returned :=
  for_each push_one vals;;
  ln ← len;
  core_update Operations.add ((ln : Z) - 1)%Z PNull (PArr vals);;
  ln ← len;
  mret (RNum ln).

(** [shift], lines 312-323 *)
Definition shift : M State Returned :=
  arr ← gets _array;
  if bool_decide (length (arr : list Value) = 0) then mret RUndefined
  else
    let shifted := default VUndefined (head arr) in
    modify (with_array (tail arr));;
    index ← len;
    delete_index index;;
    core_update Operations.remove 0%Z (PVal shifted) PNull;;
    mret (RVal shifted).

(** The loop of [unshift]: [array.splice(i, 0, arguments[i])] and
    [defineIndexProp(array.length - 1)] for [i = 0 .. ln - 1]. *)
Fixpoint unshift_loop (i : nat) (vals : list Value) : M State unit :=
  match vals with
  | [] => mret tt
  | v :: vals' =>
      modify (λ s, with_array (snd (js_splice (_array s) (Z.of_nat i) (Some 0%Z) [v])) s);;
      ln ← len;
      defineIndexProp ((ln : Z) - 1)%Z;;
      unshift_loop (S i) vals'
  end.

(** [unshift], lines 324-336 *)
Definition unshift (vals : list Value) : M State Returned :=
  unshift_loop 0 vals;;
  core_update Operations.add 0%Z PNull (PArr vals);;
  ln ← len;
  mret (RNum ln).

(** [reverse], lines 243-251 *)
Definition reverse : M State Returned :=
  arr ← gets _array;
  if bool_decide (length (arr : list Value) = 0) then mret RUndefined
  else
    modify (with_array (rev arr));;
    core_update Operations.reverse (-1)%Z PNull PNull;;
    reversed ← gets _array;
    mret (RArray reversed).

(** [sort], lines 252-261; [js_sort args arr] is what
    [Array.prototype.sort] makes of [arr] for the call arguments [args]. *)
Definition sort (js_sort : list Value → list Value → list Value)
    (args : list Value) : M State Returned :=
  arr ← gets _array;
  if bool_decide (length (arr : list Value) = 0) then mret RUndefined
  else
    modify (with_array (js_sort args arr));;
    core_update Operations.sort (-1)%Z PNull (PArr args);;
    sorted ← gets _array;
    mret (RArray sorted).

(** [updateByDiff], lines 94-104: one [updateSplice] for every entry of
    the difference, in the order of the keys; the key of an entry is the
    index of its region. *)
Definition updateByDiff (array : list Value) : M State unit :=
  arr ← gets _array;
  for_each (λ jc : nat * U.Change,
    updateSplice (Z.of_nat (fst jc)) (Some (U.o (snd jc))) (Some (U.n (snd jc))))
    (U.diff array arr).

(** *** An update cycle *)




(** What the calls of a cycle enqueue, in order: the invocation of each
    listener with the event of its call. *)
Definition requests (ev : Event) (ls : list Listener.t)
    : list ((option nat * nat) * Event) :=
  (λ l, (Listener.target l, ev)) <$> ls.



(** The [listener.property.update(event)] calls of one loop. *)
Definition property_updates (ev : Event) (ls : list Listener.t)
    : list (nat * Event) :=
  omap (λ l, (λ p, (p, ev)) <$> Listener.property l) ls.


(** The event of a splice. *)
Definition splice_event (index : Z) (spliced newItems : list Value) : Event :=
  makeEvent Operations.splice index (PArr spliced) (PArr newItems).


(** *** The calls that change the length, and the order of their effects *)

Inductive Call :=
| Push (vals : list Value)
| Pop
| Shift
| Unshift (vals : list Value)
| Splice (a : SpliceArgs).

Definition call_method (c : Call) : M State Returned :=
  match c with
  | Push vals => push vals
  | Pop => pop
  | Shift => shift
  | Unshift vals => unshift vals
  | Splice a => splice a
  end.

(** The index cells that an array of [n] elements exposes. *)
Definition index_range (n : nat) : gset Z :=
  list_to_set (Z.of_nat <$> seq 0 n).

Definition is_define (e : Effect) : bool :=
  match e with EDefine _ => true | _ => false end.
Definition is_delete (e : Effect) : bool :=
  match e with EDelete _ => true | _ => false end.
Definition is_emit (e : Effect) : bool :=
  match e with EEmit _ => true | _ => false end.

(** In the effects [fx], every effect of the kind [is_kind] comes before
    (after) every update handed to the listeners. *)
Definition before_update (is_kind : Effect → bool) (fx : list Effect) : Prop :=
  ∀ i j e e', fx !! i = Some e → fx !! j = Some e' →
              is_kind e = true → is_emit e' = true → i < j.
Definition after_update (is_kind : Effect → bool) (fx : list Effect) : Prop :=
  ∀ i j e e', fx !! i = Some e → fx !! j = Some e' →
              is_kind e = true → is_emit e' = true → j < i.

(** A [splice] whose [howMany] is the number of elements it removes. *)
Definition removes_howMany (s : State) (c : Call) : Prop :=
  match c with
  | Splice (Range index howMany newItems) =>
      Z.of_nat (length (fst (js_splice (_array s) index (Some howMany) newItems)))
      = howMany
  | Splice (FromIndex _) => False
  | _ => True
  end.


(** *** Refreshing a filtered array, and plain copies *)

(** [Array.prototype.filter] for a callback that is given the element and
    its index. *)
Fixpoint js_filter_from (i : nat) (callback : Value → nat → bool)
    (a : list Value) : list Value :=
  match a with
  | [] => []
  | v :: a' =>
      if callback v i then v :: js_filter_from (S i) callback a'
      else js_filter_from (S i) callback a'
  end.

Definition js_filter (callback : Value → nat → bool) (a : list Value)
    : list Value :=
  js_filter_from 0 callback a.

(** [reFilter], lines 38-43, on the store of the filtered array;
    [original] is [original._array]. *)
Definition reFilter (original : list Value) (filterArgs : Value → nat → bool)
    : M State unit :=
  oarr ← gets _array;
  modify (with_array (js_filter filterArgs original));;
  updateByDiff oarr.

(** What [toArray] returns: plain values, and plain arrays in the place of
    the reactive arrays. *)
#[warnings="-register-all"]
Inductive Plain :=
| PlainVal (v : Value)
| PlainArr (l : list Plain).

(** [toArray], lines 337-351. [heap] holds the backing arrays of the
    reactive arrays by reference, so [isProArray(el)] is [el] being an
    object of [heap]; [fuel] bounds the depth of the recursion, [None] is
    fuel run out. *)
Fixpoint toArray (fuel : nat) (heap : gmap nat (list Value))
    (ar : list Value) : option (list Plain) :=
  match fuel with
  | O => None
  | S fuel' =>
      mapM (λ el,
        match el with
        | VObj r =>
            match heap !! r with
            | Some ar' => PlainArr <$> toArray fuel' heap ar'
            | None => Some (PlainVal el)
            end
        | _ => Some (PlainVal el)
        end) ar
  end.

End PArray.

(** ** ProAct.Actor: what the sources use of it *)

Module Actor.

(** Modelled from the spec: [P.States] is not part of the sources; a node
    is created in [init], becomes [ready], and [destroyed] is terminal. *)
Inductive States := init | ready | destroyed.

Global Instance States_eq_dec : EqDecision States.
Proof. solve_decision. Defined.

(** Modelled from the spec: the sentinel [P.Actor.BadValue] is not part of
    the sources; it is an object of its own. *)
Definition BadValue : Value := VObj 0.

(** A transformation is user code: it returns a value or throws. *)
Definition Transform : Type := Value → Result Value.

(** Modelled from the spec: [P.Actor.transform] is not part of the sources;
    it applies the pipeline in order, a transformation that yields
    [BadValue] short-circuits the rest. *)
Fixpoint transform (ts : list Transform) (v : Value) : Result Value :=
  match ts with
  | [] => Ret v
  | f :: ts' =>
      match f v with
      | Ret v' => if strict_eq v' BadValue then Ret v' else transform ts' v'
      | Throw e => Throw e
      end
  end.

End Actor.

(** ** ProAct.Property *)

Module Property.
Import Actor.

(** [ProAct.Property.Types] *)
Module Types.
Inductive t := simple | auto | object | array | nil.

Global Instance eq_dec : EqDecision t.
Proof. solve_decision. Defined.

(** [Types.type], lines 158-170 *)
Definition type (value : Value) : t :=
  match value with
  | VNull => nil
  | VFun _ => auto
  | VArr _ => array
  | VObj _ | VError _ => object
  | _ => simple
  end.
End Types.

(** A field of a host object: a plain data field with its attributes, or
    the accessor pair of the Property [owner]. *)
Inductive Field :=
| Data (value : Value) (enumerable configurable writable : bool)
| Accessor (owner : nat).

Record Host := {
  fields : gmap string Field;
  properties : gmap string nat;    (* [__pro__.properties] *)
  statics : option (list string);  (* [__pro__.meta.p.statics] *)
}.

Record t := {
  proObject : option nat;          (* the host; [undefined] once destroyed *)
  property : option string;        (* the name of the field *)
  val : Value;
  oldVal : Value;
  state : States;
  isStaticTyped : bool;
  listeners : list Listener.t;     (* [listeners.change] *)
  transforms : list Transform;
  kind : Types.t;                  (* what [type()] returns for its class *)
  accessors : bool;                (* [get], [set], [g], [s], [v] are defined *)
}.

(** [makeEvent], lines 383-385: a value event without source. *)
Record Event := {
  target : option string;
  object : option nat;
  old : Value;
  new : Value;
}.

Record World := {
  hosts : gmap nat Host;
  cells : gmap nat t;
  flow : Flow.t Event;
  currentCaller : option Listener.t;   (* [P.currentCaller] *)
}.

Definition with_hosts (h : gmap nat Host) (w : World) : World :=
  {| hosts := h; cells := cells w; flow := flow w; currentCaller := currentCaller w |}.
Definition with_cells (c : gmap nat t) (w : World) : World :=
  {| hosts := hosts w; cells := c; flow := flow w; currentCaller := currentCaller w |}.
Definition with_flow (f : Flow.t Event) (w : World) : World :=
  {| hosts := hosts w; cells := cells w; flow := f; currentCaller := currentCaller w |}.

(** A field access on the Property [p]; a reference that does not resolve
    behaves as [undefined]. *)
Definition cell (p : nat) : M World t :=
  λ w, match cells w !! p with
       | Some c => (Ret c, w)
       | None => (Throw TypeError, w)
       end.

Definition set_cell (p : nat) (c : t) : M World unit :=
  modify (λ w, with_cells (<[p := c]> (cells w)) w).

(** [this.proObject.__pro__] *)
Definition host_of (c : t) : M World (nat * Host) :=
  λ w, match proObject c with
       | Some h =>
           match hosts w !! h with
           | Some host => (Ret (h, host), w)
           | None => (Throw TypeError, w)
           end
       | None => (Throw TypeError, w)
       end.

Definition set_host (h : nat) (host : Host) : M World unit :=
  modify (λ w, with_hosts (<[h := host]> (hosts w)) w).

(** The key a field name is used as: [undefined] is the key ["undefined"]. *)
Definition field_key (name : option string) : string :=
  default "undefined" name.

Definition makeEvent (c : t) : Event :=
  {| target := property c; object := proObject c; old := oldVal c; new := val c |}.

(** Modelled from the spec: [Actor.update] is not part of the sources. For
    every subscribed listener of a ready node it defers the listener's
    invocation to the flow, inside a run. *)
Definition update (p : nat) : M World unit :=
  c ← cell p;
  if bool_decide (state c = ready) then
    flow_run flow with_flow
      (for_each (λ l : Listener.t,
         flow_enqueue flow with_flow true
           (fst (Listener.target l)) (snd (Listener.target l)) (makeEvent c))
         (listeners c))
  else mret tt.

(** Modelled from the spec: [Actor.on] is not part of the sources. It
    subscribes; it is a no-op if the listener is already subscribed or the
    node is destroyed; listening to oneself is a misuse, reported at once. *)
Definition on (p : nat) (l : Listener.t) : M World unit :=
  c ← cell p;
  if bool_decide (Listener.property l = Some p) then throw Misuse
  else if bool_decide (state c = destroyed) || bool_decide (l ∈ listeners c)
  then mret tt
  else set_cell p
    {| proObject := proObject c; property := property c; val := val c;
       oldVal := oldVal c; state := state c; isStaticTyped := isStaticTyped c;
       listeners := listeners c ++ [l]; transforms := transforms c;
       kind := kind c; accessors := accessors c |}.

(** Modelled from the spec: [Actor.off] is not part of the sources. It
    unsubscribes; a no-op if the listener is absent. *)
Definition off (p : nat) (l : Listener.t) : M World unit :=
  c ← cell p;
  set_cell p
    {| proObject := proObject c; property := property c; val := val c;
       oldVal := oldVal c; state := state c; isStaticTyped := isStaticTyped c;
       listeners := filter (λ l', l' ≠ l) (listeners c); transforms := transforms c;
       kind := kind c; accessors := accessors c |}.

(** [addCaller], lines 454-460 *)
Definition addCaller (p : nat) : M World unit :=
  caller ← gets currentCaller;
  match caller with
  | Some caller =>
      if bool_decide (Listener.property caller ≠ Some p) then on p caller
      else mret tt
  | None => mret tt
  end.

(** The getter that [defaultGetter] makes, lines 191-197 *)
Definition defaultGetter (p : nat) : M World Value :=
  addCaller p;;
  c ← cell p;
  mret (val c).

(** [doDestroy], lines 462-472 *)
Definition doDestroy (p : nat) : M World unit :=
  c ← cell p;
  '(h, host) ← host_of c;
  set_host h
    {| fields := <[field_key (property c) := Data (val c) true true true]> (fields host);
       properties := delete (field_key (property c)) (properties host);
       statics := statics host |};;
  set_cell p
    {| proObject := None; property := None; val := VUndefined;
       oldVal := VUndefined; state := state c; isStaticTyped := false;
       listeners := listeners c; transforms := transforms c;
       kind := kind c; accessors := false |}.

(** Modelled from the spec: [Actor.destroy] is not part of the sources. It
    is idempotent; on a live node it transitions to [destroyed], lets the
    class release what it owns ([doDestroy]) and clears the listeners and
    the transformations. *)
Definition destroy (p : nat) : M World unit :=
  c ← cell p;
  if bool_decide (state c = destroyed) then mret tt
  else
    set_cell p
      {| proObject := proObject c; property := property c; val := val c;
         oldVal := oldVal c; state := destroyed; isStaticTyped := isStaticTyped c;
         listeners := listeners c; transforms := transforms c;
         kind := kind c; accessors := accessors c |};;
    doDestroy p;;
    c ← cell p;
    set_cell p
      {| proObject := proObject c; property := property c; val := val c;
         oldVal := oldVal c; state := state c; isStaticTyped := isStaticTyped c;
         listeners := []; transforms := [];
         kind := kind c; accessors := accessors c |}.

(** [proObject[property]] *)
Definition read_field (host : Host) (name : string) : M World Value :=
  match fields host !! name with
  | Some (Data v _ _ _) => mret v
  | Some (Accessor owner) => defaultGetter owner
  | None => mret VUndefined
  end.

(** The constructor, lines 54-91, for a host that has its [__pro__] and a
    class whose [type()] is [k]; the part of [P.Actor] is modelled from the
    spec: the node has no listeners and no transformations, and is [ready]
    once [doInit] (lines 439-442) has defined the accessors. *)
Definition construct (p h : nat) (name : string) (k : Types.t) : M World unit :=
  host ← (λ w, match hosts w !! h with
               | Some host => (Ret host, w)
               | None => (Throw TypeError, w)
               end);
  set_host h
    {| fields := fields host; properties := <[name := p]> (properties host);
       statics := statics host |};;
  v ← read_field host name;
  set_host h
    {| fields := <[name := Accessor p]> (fields host);
       properties := <[name := p]> (properties host);
       statics := statics host |};;
  set_cell p
    {| proObject := Some h; property := Some name; val := v; oldVal := VNull;
       state := ready;
       isStaticTyped := match statics host with
                        | Some names => bool_decide (name ∈ names)
                        | None => false
                        end;
       listeners := []; transforms := []; kind := k; accessors := true |}.

(** Modelled from the spec: [ObjectCore.makeProp] is not part of the
    sources. It builds a new cell for the field against the category of the
    value the field holds, subscribes the given listeners and returns it. *)
Definition makeProp (h : nat) (name : string) (ls : list Listener.t) : M World nat :=
  host ← (λ w, match hosts w !! h with
               | Some host => (Ret host, w)
               | None => (Throw TypeError, w)
               end);
  v ← read_field host name;
  p ← gets (λ w, fresh (dom (cells w)));
  construct p h name (Types.type v);;
  c ← cell p;
  set_cell p
    {| proObject := proObject c; property := property c; val := val c;
       oldVal := oldVal c; state := state c; isStaticTyped := isStaticTyped c;
       listeners := ls; transforms := transforms c;
       kind := kind c; accessors := accessors c |};;
  mret p.

(** [reProb], lines 289-300; [None] is the [undefined] of the bare
    [return]. *)
Definition reProb (p : nat) : M World (option nat) :=
  c ← cell p;
  if isStaticTyped c || bool_decide (state c ≠ ready) then mret None
  else
    let po := proObject c in
    let name := property c in
    let l := listeners c in
    destroy p;;
    match po with
    | Some h => q ← makeProp h (field_key name) l; mret (Some q)
    | None => throw TypeError
    end.

(** The setter that [defaultSetter] makes, lines 222-244; [setter] is the
    optional second argument. *)
Definition defaultSetter (p : nat) (setter : option (Value → Value))
    (newVal : Value) : M World unit :=
  c ← cell p;
  newVal ← (λ w, (transform (transforms c) newVal, w));
  if strict_eq newVal BadValue || strict_eq (val c) newVal then mret tt
  else
    let stored := match setter with Some f => f newVal | None => newVal end in
    set_cell p
      {| proObject := proObject c; property := property c; val := stored;
         oldVal := val c; state := state c; isStaticTyped := isStaticTyped c;
         listeners := listeners c; transforms := transforms c;
         kind := kind c; accessors := accessors c |};;
    if bool_decide (kind c ≠ Types.auto) && bool_decide (Types.type stored ≠ kind c)
    then
      q ← reProb p;
      match q with
      | Some q => update q
      | None => throw TypeError
      end
    else update p.

(** *** The listeners of a property *)

(** The listeners of [p] hold no listener twice, and no listener that
    belongs to [p] itself. *)
Definition well_subscribed (p : nat) (w : World) : Prop :=
  ∃ c, cells w !! p = Some c ∧ NoDup (listeners c) ∧
       ∀ l, l ∈ listeners c → Listener.property l ≠ Some p.

(** The calls that touch the listeners of a property. *)
Inductive Subscription :=
| Subscribe (l : Listener.t)     (* [p.on(l)] *)
| Unsubscribe (l : Listener.t)   (* [p.off(l)] *)
| Track                          (* [p.addCaller()] *)
| Read.                          (* [p.get()] *)

Definition subscription (a : Subscription) (p : nat) : M World unit :=
  match a with
  | Subscribe l => on p l
  | Unsubscribe l => off p l
  | Track => addCaller p
  | Read => defaultGetter p;; mret tt
  end.

(** *** What remains of a destroyed property, and what a rebuilt one is *)

Definition destroyed_cell (c : t) : t :=
  {| proObject := None; property := None; val := VUndefined;
     oldVal := VUndefined; state := destroyed; isStaticTyped := false;
     listeners := []; transforms := []; kind := kind c; accessors := false |}.

(** The host after the field [f] is restored as a data field holding [v]. *)
Definition restored_host (host : Host) (f : string) (v : Value) : Host :=
  {| fields := <[f := Data v true true true]> (fields host);
     properties := delete f (properties host);
     statics := statics host |}.

(** The host after the property [q] is bound to its field [f]. *)
Definition bound_host (host : Host) (f : string) (q : nat) : Host :=
  {| fields := <[f := Accessor q]> (fields host);
     properties := <[f := q]> (properties host);
     statics := statics host |}.

(** The cell that is built for the field [f] of the host [h] holding [v]. *)
Definition built_cell (h : nat) (host : Host) (f : string) (v : Value)
    (ls : list Listener.t) : t :=
  {| proObject := Some h; property := Some f; val := v; oldVal := VNull;
     state := ready;
     isStaticTyped := match statics host with
                      | Some names => bool_decide (f ∈ names)
                      | None => false
                      end;
     listeners := ls; transforms := []; kind := Types.type v;
     accessors := true |}.

(** *** The listener of a property, and single-field cells *)

(** The [call] of the listener that [makeListener] makes, lines 415-421.
    The argument is a plain value or a value event (three arguments);
    [event_object] is the event as a value, which is passed on when the
    event has no target. *)
Definition listener_call (event_object : Event → Value) (p : nat)
    (newVal : Value + Event) : M World unit :=
  v ← match newVal with
      | inl v => mret v
      | inr ev =>
          match target ev with
          | Some name =>
              if bool_decide (name = "") then mret (event_object ev)
              else
                match object ev with
                | Some h =>
                    host ← (λ w, match hosts w !! h with
                                 | Some host => (Ret host, w)
                                 | None => (Throw TypeError, w)
                                 end);
                    read_field host name
                | None => throw TypeError
                end
          | None => mret (event_object ev)
          end
      end;
  c ← cell p;
  if accessors c then defaultSetter p None v else throw TypeError.

(** The [meta] argument of [lazyValue]: absent, a string or an array, or an
    object with an optional [p] that has optional [statics]. *)
Inductive Meta :=
| MetaAbsent
| MetaShort
| MetaObject (p : option (option (list string))).

(** [meta.p.statics] after lines 310-318. *)
Definition meta_statics (meta : Meta) : list string :=
  match meta with
  | MetaObject (Some (Some names)) => names
  | _ => ["v"]
  end.

(** [lazyValue], lines 309-329. Modelled from the spec: [ObjectCore] and
    its [prob] are not part of the sources; [prob] makes the property of
    the one field of the object. *)
Definition lazyValue (val : Value) (meta : Meta) : M World nat :=
  h ← gets (λ w, fresh (dom (hosts w)));
  modify (λ w, with_hosts
    (<[h := {| fields := {[ "v" := Data val true true true ]};
               properties := ∅;
               statics := Some (meta_statics meta) |}]> (hosts w)) w);;
  makeProp h "v" [].

(** [value], lines 302-307 *)
Definition value (val : Value) (meta : Meta) : M World nat :=
  p ← lazyValue val meta;
  defaultGetter p;;
  mret p.

End Property.

(** ** ProAct.Stream *)

Module Stream.
Import Actor.

(** A stream and the flow it defers to. The events that travel through a
    stream, and the errors, are values. *)
Record State := {
  listeners : list Listener.t;      (* the listeners of values *)
  errListeners : list Listener.t;   (* the listeners of errors *)
  transforms : list Transform;
  flow : Flow.t Value;
}.

Definition with_flow (f : Flow.t Value) (s : State) : State :=
  {| listeners := listeners s; errListeners := errListeners s;
     transforms := transforms s; flow := f |}.

(** [makeEvent], lines 63-65: the event is the source. *)
Definition makeEvent (source : Value) : Value := source.

(** [defer], lines 113-124. Modelled from the spec: [Observable.defer],
    which a listener with a [property] is passed to, is not part of the
    sources; it defers the invocation once. *)
Definition defer (event : Value) (listener : Listener.t) : M State unit :=
  match Listener.property listener with
  | Some _ =>
      flow_enqueue flow with_flow true
        (fst (Listener.target listener)) (snd (Listener.target listener)) event
  | None =>
      if Listener.callable listener
      then flow_enqueue flow with_flow false None (Listener.ref listener) event
      else flow_enqueue flow with_flow false
             (Some (Listener.ref listener)) (Listener.call listener) event
  end.

(** Modelled from the spec: [Observable.update(source, callbacks)] is not
    part of the sources. It defers, inside a run, the event made of
    [source] to every listener of [callbacks] when that list is given, to
    the listeners of values otherwise. *)
Definition update (source : Value) (callbacks : option (list Listener.t))
    : M State unit :=
  flow_run flow with_flow
    (ls ← gets (λ s, default (listeners s) callbacks);
     for_each (defer (makeEvent source)) ls).

(** [triggerErr], lines 131-133 *)
Definition triggerErr (err : Value) : M State unit :=
  ls ← gets errListeners;
  update err (Some ls).

(** [go], lines 134-151 *)
Definition go (event : Value) (useTransformations : bool) : M State unit :=
  ts ← gets transforms;
  match (if useTransformations then transform ts event else Ret event) with
  | Throw e => triggerErr e
  | Ret event =>
      if strict_eq event BadValue then mret tt
      else update event None
  end.

(** [trigger], lines 125-130; [None] is an omitted second argument. *)
Definition trigger (event : Value) (useTransformations : option bool)
    : M State unit :=
  go event (default true useTransformations).

(** An invocation that was scheduled before ([old]), or that hands [v] to
    one of the listeners [ls]. *)
Definition old_or_sent (old : list (Flow.Invocation Value)) (v : Value)
    (ls : list Listener.t) (i : Flow.Invocation Value) : Prop :=
  i ∈ old ∨ (Flow.args i = v ∧ Flow.key i ∈ Listener.target <$> ls).

(** Between the flows [f] and [f'] nothing was scheduled but invocations
    of listeners among [ls], with the argument [v]. *)
Definition delivers_only (f f' : Flow.t Value) (v : Value)
    (ls : list Listener.t) : Prop :=
  Forall (old_or_sent (Flow.scheduled f) v ls) (Flow.scheduled f').

(** The invocation that hands [v] to the listener [l]. *)
Definition handed (v : Value) (l : Listener.t) : Flow.Invocation Value :=
  {| Flow.obj := fst (Listener.target l);
     Flow.method := snd (Listener.target l); Flow.args := v |}.

End Stream.

(** ** Example stores *)

Definition fn1 : Listener.t :=
  {| Listener.ref := 1; Listener.callable := true; Listener.call := 0;
     Listener.property := None |}.
Definition obj2 : Listener.t :=
  {| Listener.ref := 2; Listener.callable := false; Listener.call := 7;
     Listener.property := Some 5 |}.


(** The same array outside of a run. *)
Definition idle : PArray.State :=
  {| PArray._array := [VNum 1; VNum 2]; PArray.indices := {[0%Z; 1%Z]};
     PArray.index_listeners := [fn1]; PArray.length_listeners := [obj2; fn1];
     PArray.flow := {| Flow.running := false; Flow.pending := []; Flow.delivered := [] |};
     PArray.updated := []; PArray.log := [] |}.

(** A host [{v: 5}] whose field [v] is the property [1], listened to by
    [fn1]; [static] tells whether [v] is among the statics of the host. *)
Definition scalar_cell (static : bool) : Property.t :=
  {| Property.proObject := Some 0; Property.property := Some "v";
     Property.val := VNum 5; Property.oldVal := VNull;
     Property.state := Actor.ready; Property.isStaticTyped := static;
     Property.listeners := [fn1]; Property.transforms := [];
     Property.kind := Property.Types.simple; Property.accessors := true |}.

Definition scalar_world (static : bool) : Property.World :=
  {| Property.hosts :=
       {[ 0 := {| Property.fields := {[ "v" := Property.Accessor 1 ]};
                  Property.properties := {[ "v" := 1 ]};
                  Property.statics := if static then Some ["v"] else None |} ]};
     Property.cells := {[ 1 := scalar_cell static ]};
     Property.flow :=
       {| Flow.running := false; Flow.pending := []; Flow.delivered := [] |};
     Property.currentCaller := None |}.

(** A host [{v: 5}] that has no property yet, and a store that holds
    nothing else. *)
Definition plain_host : Property.Host :=
  {| Property.fields := {[ "v" := Property.Data (VNum 5) true true true ]};
     Property.properties := ∅; Property.statics := None |}.

Definition plain_world : Property.World :=
  {| Property.hosts := {[ 0 := plain_host ]};
     Property.cells := ∅;
     Property.flow :=
       {| Flow.running := false; Flow.pending := []; Flow.delivered := [] |};
     Property.currentCaller := None |}.

(** The listener that the property [1] makes of itself, and a store in
    which it is the current caller. *)
Definition own_listener : Listener.t :=
  {| Listener.ref := 9; Listener.callable := false; Listener.call := 10;
     Listener.property := Some 1 |}.

Definition reading_world : Property.World :=
  {| Property.hosts := Property.hosts (scalar_world false);
     Property.cells := Property.cells (scalar_world false);
     Property.flow := Property.flow (scalar_world false);
     Property.currentCaller := Some own_listener |}.

(** An empty array outside of a run. *)
Definition empty_idle : PArray.State :=
  {| PArray._array := []; PArray.indices := ∅;
     PArray.index_listeners := [fn1]; PArray.length_listeners := [obj2; fn1];
     PArray.flow := {| Flow.running := false; Flow.pending := []; Flow.delivered := [] |};
     PArray.updated := []; PArray.log := [] |}.

(** A stream with a listener of values, a listener of errors, and a
    transformation that throws on strings. *)
Definition err_listener : Listener.t :=
  {| Listener.ref := 3; Listener.callable := true; Listener.call := 0;
     Listener.property := None |}.

Definition numbers_only : Actor.Transform :=
  λ v, match v with
       | VStr _ => Throw (VError "NotANumber")
       | _ => Ret v
       end.

Definition stream : Stream.State :=
  {| Stream.listeners := [fn1; obj2]; Stream.errListeners := [err_listener];
     Stream.transforms := [numbers_only];
     Stream.flow :=
       {| Flow.running := false; Flow.pending := []; Flow.delivered := [] |} |}.

(** A stream with two plain listeners of values, inside an open run in
    which an invocation of [fn1] is pending already. *)
Definition plain_stream : Stream.State :=
  {| Stream.listeners := [fn1; err_listener]; Stream.errListeners := [];
     Stream.transforms := [numbers_only];
     Stream.flow :=
       {| Flow.running := true;
          Flow.pending := [{| Flow.obj := None; Flow.method := 1;
                              Flow.args := VNum 0 |}];
          Flow.delivered := [] |} |}.

(** * Theorems *)

Ltac step := unfold mbind at 1, M_bind at 1.

(** * The queue *)

Section queue_facts.
Context {A : Type}.
Implicit Types (q : list (Flow.Invocation A)) (k : option nat * nat) (a : A).

Lemma pushOnce_keys o m a q :
  Flow.key <$> Flow.pushOnce o m a q =
  if bool_decide ((o, m) ∈ Flow.key <$> q) then Flow.key <$> q
  else (Flow.key <$> q) ++ [(o, m)].
Proof.
  induction q as [|i q IH]; [done|].
  cbn [Flow.pushOnce]. rewrite !fmap_cons.
  destruct (decide (Flow.key i = (o, m))) as [Hi|Hi].
  - rewrite (bool_decide_eq_true_2 (Flow.key i = _)) by done.
    rewrite bool_decide_eq_true_2 by (rewrite Hi; left).
    rewrite fmap_cons. f_equal. by rewrite Hi.
  - rewrite (bool_decide_eq_false_2 (Flow.key i = _)) by done.
    rewrite fmap_cons, IH. destruct (decide ((o, m) ∈ Flow.key <$> q)) as [Hin|Hin].
    + rewrite !bool_decide_eq_true_2; [done | by right | done].
    + rewrite !bool_decide_eq_false_2; [done | | done].
      intros [?|?]%elem_of_cons; congruence.
Qed.

Lemma pushOnce_NoDup o m a q :
  NoDup (Flow.key <$> q) → NoDup (Flow.key <$> Flow.pushOnce o m a q).
Proof.
  intros Hq. rewrite pushOnce_keys. case_bool_decide as Hin; [done|].
  apply NoDup_app. split_and!; [done| |apply NoDup_singleton].
  intros x Hx ->%list_elem_of_singleton. done.
Qed.

Lemma pending_for_absent k q :
  k ∉ Flow.key <$> q → Flow.pending_for k q = [].
Proof.
  unfold Flow.pending_for. induction q as [|i q IH]; intros Hk; [done|].
  rewrite fmap_cons in Hk. apply not_elem_of_cons in Hk as [Hi Hk].
  rewrite filter_cons, decide_False by done. by apply IH.
Qed.

Lemma pending_for_pushOnce_same o m a q :
  NoDup (Flow.key <$> q) →
  Flow.pending_for (o, m) (Flow.pushOnce o m a q) =
  [{| Flow.obj := o; Flow.method := m; Flow.args := a |}].
Proof.
  unfold Flow.pending_for.
  induction q as [|i q IH]; simpl; intros Hq.
  - rewrite filter_cons. rewrite decide_True; done.
  - apply NoDup_cons in Hq as [Hi Hq]. case_bool_decide as Hk.
    + rewrite filter_cons, decide_True by done. f_equal.
      apply pending_for_absent. by rewrite <- Hk.
    + rewrite filter_cons, decide_False by done. by apply IH.
Qed.

Lemma pending_for_pushOnce_other k o m a q :
  k ≠ (o, m) →
  Flow.pending_for k (Flow.pushOnce o m a q) = Flow.pending_for k q.
Proof.
  intros Hk. unfold Flow.pending_for.
  induction q as [|i q IH]; simpl.
  - rewrite filter_cons, decide_False; [done | by intros <-].
  - case_bool_decide as Hi.
    + rewrite !filter_cons, !decide_False; [done | congruence | by intros <-].
    + rewrite !filter_cons, IH. done.
Qed.

Lemma enqueue_all_NoDup reqs q :
  NoDup (Flow.key <$> q) → NoDup (Flow.key <$> Flow.enqueue_all reqs q).
Proof.
  revert q. induction reqs as [|r reqs IH]; intros q Hq; [done|].
  simpl. apply IH. by apply pushOnce_NoDup.
Qed.

Lemma enqueue_all_snoc reqs r q :
  Flow.enqueue_all (reqs ++ [r]) q =
  Flow.pushOnce (fst (fst r)) (snd (fst r)) (snd r) (Flow.enqueue_all reqs q).
Proof. unfold Flow.enqueue_all. by rewrite foldl_app. Qed.

(** Push-once: whatever was requested for [k], and however often, one
    invocation is pending for it, with the arguments requested last. *)
Lemma enqueue_all_once reqs q k :
  NoDup (Flow.key <$> q) →
  k ∈ fst <$> reqs →
  ∃ a, last (snd <$> filter (λ r, fst r = k) reqs) = Some a ∧
       Flow.pending_for k (Flow.enqueue_all reqs q) =
       [{| Flow.obj := fst k; Flow.method := snd k; Flow.args := a |}].
Proof.
  intros Hq. induction reqs as [|r reqs IH] using rev_ind; intros Hk.
  - by apply elem_of_nil in Hk.
  - rewrite enqueue_all_snoc, filter_app, fmap_app.
    destruct (decide (fst r = k)) as [Hr|Hr].
    + exists (snd r). split.
      * rewrite filter_cons, decide_True by done. simpl. by rewrite last_snoc.
      * subst k. destruct r as [[o m] a]. simpl.
        apply pending_for_pushOnce_same. by apply enqueue_all_NoDup.
    + rewrite fmap_app in Hk. apply elem_of_app in Hk as [Hk|Hk].
      * destruct (IH Hk) as (a & Hlast & Hp). exists a. split.
        -- rewrite filter_cons, decide_False by done. simpl.
           by rewrite app_nil_r.
        -- rewrite pending_for_pushOnce_other; [done|].
           destruct r as [[o m] a']. simpl in *. congruence.
      * simpl in Hk. apply list_elem_of_singleton in Hk. congruence.
Qed.
End queue_facts.

(** * Reactive arrays *)

Section parray_facts.
Import PArray.

(** The loop of [willUpdateListeners] in an open run: every listener is
    enqueued once, the owners of the listeners are updated, nothing else
    changes. *)
Lemma defer_loop_running ev ls s :
  Flow.running (flow s) = true →
  for_each (defer_listener ev) ls s =
  (Ret tt,
   {| _array := _array s; indices := indices s;
      index_listeners := index_listeners s;
      length_listeners := length_listeners s;
      flow := {| Flow.running := true;
                 Flow.pending := Flow.enqueue_all (requests ev ls) (Flow.pending (flow s));
                 Flow.delivered := Flow.delivered (flow s) |};
      updated := updated s ++ property_updates ev ls;
      log := log s |}).
Proof.
  revert s. induction ls as [|l ls IH]; intros s Hrun.
  - destruct s as [a i il ll [r p d] u lg]. simpl in *. subst r.
    by rewrite app_nil_r.
  - destruct s as [a i il ll [r p d] u lg]. simpl in Hrun. subst r.
    cbn [for_each]. unfold mbind at 1, M_bind at 1.
    unfold defer_listener at 1.
    unfold mbind at 1, M_bind at 1.
    assert (Hpush : ∀ o m,
      pushOnce o m ev
        {| _array := a; indices := i; index_listeners := il;
           length_listeners := ll;
           flow := {| Flow.running := true; Flow.pending := p; Flow.delivered := d |};
           updated := u; log := lg |} =
      (Ret tt,
        {| _array := a; indices := i; index_listeners := il;
           length_listeners := ll;
           flow := {| Flow.running := true;
                      Flow.pending := Flow.pushOnce o m ev p;
                      Flow.delivered := d |};
           updated := u; log := lg |})) by done.
    destruct l as [lr [] lc [q|]];
      cbn [Listener.callable Listener.property Listener.ref Listener.call];
      rewrite Hpush; unfold property_update, modify, mret, M_ret;
      cbn [with_updated updated _array indices index_listeners
           length_listeners flow log];
      rewrite IH by done; simpl; rewrite <- ?(assoc_L (++)); done.
Qed.

Lemma willUpdateListeners_running ls o i ov nv s :
  Flow.running (flow s) = true →
  willUpdateListeners ls o i ov nv s =
  (Ret tt,
   {| _array := _array s; indices := indices s;
      index_listeners := index_listeners s;
      length_listeners := length_listeners s;
      flow := {| Flow.running := true;
                 Flow.pending :=
                   Flow.enqueue_all (requests (makeEvent o i ov nv) ls)
                     (Flow.pending (flow s));
                 Flow.delivered := Flow.delivered (flow s) |};
      updated := updated s ++ property_updates (makeEvent o i ov nv) ls;
      log := log s ++ [EEmit (makeEvent o i ov nv)] |}).
Proof.
  intros Hrun. unfold willUpdateListeners, emit, modify.
  unfold mbind, M_bind. by rewrite defer_loop_running.
Qed.




End parray_facts.

Section queue_keys.
Context {A : Type}.




End queue_keys.

Section splice_facts.
Import PArray.





End splice_facts.

Section lengths.
Import PArray.

Lemma elem_of_index_range n x :
  x ∈ index_range n ↔ (0 ≤ x < Z.of_nat n)%Z.
Proof.
  unfold index_range. rewrite elem_of_list_to_set, list_elem_of_fmap.
  split.
  - intros (k & -> & Hk). apply elem_of_seq in Hk. lia.
  - intros Hx. exists (Z.to_nat x). split; [lia|]. apply elem_of_seq. lia.
Qed.

Lemma size_index_range n : size (index_range n) = n.
Proof.
  unfold index_range. rewrite size_list_to_set.
  - by rewrite length_fmap, length_seq.
  - apply NoDup_fmap; [apply _ | apply NoDup_seq].
Qed.

(** The effects of a call that touches the index cells first and hands an
    update to the listeners afterwards are in order. *)
Lemma cells_then_update (is_kind : Effect → bool) pre post :
  Forall (λ e, is_emit e = false) pre →
  Forall (λ e, is_emit e = true ∧ is_kind e = false) post →
  before_update is_kind (pre ++ post).
Proof.
  intros Hpre Hpost i j e e' Hi Hj Hk He.
  destruct (decide (i < length pre)) as [Hlt|Hge].
  - destruct (decide (j < length pre)) as [Hjlt|Hjge]; [|lia].
    rewrite lookup_app_l in Hj by done.
    eapply Forall_lookup_1 in Hj; [|done]. simpl in Hj. congruence.
  - rewrite lookup_app_r in Hi by lia.
    eapply Forall_lookup_1 in Hi; [|done]. simpl in Hi.
    destruct Hi. congruence.
Qed.

(** [core.update] leaves the array and its cells alone and hands one
    update to the listeners. *)
Lemma core_update_frame o i ov nv s :
  ∃ s', core_update o i ov nv s = (Ret tt, s') ∧
        _array s' = _array s ∧ indices s' = indices s ∧
        log s' = log s ++ [EEmit (makeEvent o i ov nv)].
Proof.
  unfold core_update, flow_run, Flow.isRunning.
  destruct (Flow.running (flow s)) eqn:Hrun.
  - unfold mbind, M_bind, gets.
    rewrite willUpdateListeners_running by done. eauto.
  - unfold mbind, M_bind, gets.
    rewrite willUpdateListeners_running by done. simpl. eauto.
Qed.

Lemma willUpdateSplice_frame i sp ni s :
  Flow.running (flow s) = true →
  ∃ s', willUpdateSplice i (Some sp) (Some ni) s = (Ret tt, s') ∧
        _array s' = _array s ∧ indices s' = indices s ∧
        Flow.running (flow s') = true ∧
        log s' = log s ++
          (if bool_decide (length sp = 0) && bool_decide (length ni = 0)
           then [] else [EEmit (splice_event i sp ni)]).
Proof.
  intros Hrun. unfold willUpdateSplice.
  destruct (bool_decide (length sp = 0) && bool_decide (length ni = 0)).
  - exists s. by rewrite app_nil_r.
  - unfold mbind, M_bind, gets.
    rewrite willUpdateListeners_running by done. simpl.
    eexists. split; [done|]. split_and!; done.
Qed.

Lemma updateSplice_frame i sp ni s :
  ∃ s', updateSplice i (Some sp) (Some ni) s = (Ret tt, s') ∧
        _array s' = _array s ∧ indices s' = indices s ∧
        Flow.running (flow s') = Flow.running (flow s) ∧
        log s' = log s ++
          (if bool_decide (length sp = 0) && bool_decide (length ni = 0)
           then [] else [EEmit (splice_event i sp ni)]).
Proof.
  unfold updateSplice, flow_run, Flow.isRunning.
  unfold mbind at 1, M_bind at 1, gets at 1.
  destruct (Flow.running (flow s)) eqn:Hrun; cbv iota.
  - destruct (willUpdateSplice_frame i sp ni s Hrun) as (s' & -> & ? & ? & ? & ?).
    exists s'. split_and!; done.
  - rewrite Hrun.
    destruct (willUpdateSplice_frame i sp ni
                (with_flow (Flow.open (flow s)) s)) as (s' & -> & ? & ? & ? & ?);
      [done|].
    eexists. split; [done|]. split_and!; done.
Qed.
End lengths.

Section methods.
Import PArray.

Lemma pop_spec s :
  length (_array s) ≠ 0 →
  ∃ s' popped ev, pop s = (Ret (RVal popped), s') ∧
    _array s' = take (length (_array s) - 1) (_array s) ∧
    indices s' = indices s ∖ {[Z.of_nat (length (_array s) - 1)]} ∧
    log s' = log s ++ [EDelete (Z.of_nat (length (_array s) - 1)); EEmit ev].
Proof.
  intros Hlen. unfold pop. step. unfold gets at 1.
  rewrite bool_decide_eq_false_2 by done.
  step. unfold modify at 1. step. unfold len at 1, gets at 1.
  step. unfold delete_index at 1. step. unfold modify at 1.
  unfold emit at 1, modify at 1. step. unfold len at 1, gets at 1. step.
  match goal with |- context [core_update ?o ?i ?ov ?nv ?st] =>
    destruct (core_update_frame o i ov nv st) as (s' & -> & Ha & Hi & Hl) end.
  simpl in Ha, Hi, Hl. unfold mret, M_ret.
  eexists s', _, _. split; [done|]. split_and!.
  - done.
  - rewrite Hi. rewrite length_take. do 3 f_equal. lia.
  - rewrite Hl, <- (assoc_L (++)). simpl. do 3 f_equal.
    rewrite length_take. lia.
Qed.

Lemma shift_spec s :
  length (_array s) ≠ 0 →
  ∃ s' shifted ev, shift s = (Ret (RVal shifted), s') ∧
    _array s' = tail (_array s) ∧
    indices s' = indices s ∖ {[Z.of_nat (length (_array s) - 1)]} ∧
    log s' = log s ++ [EDelete (Z.of_nat (length (_array s) - 1)); EEmit ev].
Proof.
  intros Hlen. unfold shift. step. unfold gets at 1.
  rewrite bool_decide_eq_false_2 by done.
  step. unfold modify at 1. step. unfold len at 1, gets at 1.
  step. unfold delete_index at 1. step. unfold modify at 1.
  unfold emit at 1, modify at 1. step.
  match goal with |- context [core_update ?o ?i ?ov ?nv ?st] =>
    destruct (core_update_frame o i ov nv st) as (s' & -> & Ha & Hi & Hl) end.
  simpl in Ha, Hi, Hl. unfold mret, M_ret.
  assert (length (tail (_array s)) = length (_array s) - 1) as Ht
    by (destruct (_array s); simpl; lia).
  eexists s', _, _. split; [done|]. split_and!.
  - done.
  - by rewrite Hi, Ht.
  - rewrite Hl, <- (assoc_L (++)). simpl. by rewrite Ht.
Qed.

Lemma push_loop vals s :
  ∃ s' fx, for_each push_one vals s = (Ret tt, s') ∧
    _array s' = _array s ++ vals ∧
    (∀ x, x ∈ indices s' ↔
          x ∈ indices s ∨
          (Z.of_nat (length (_array s)) ≤ x
             < Z.of_nat (length (_array s) + length vals))%Z) ∧
    log s' = log s ++ fx ∧ Forall (λ e, is_emit e = false) fx.
Proof.
  revert s. induction vals as [|v vals IH]; intros s.
  - exists s, []. simpl. rewrite !app_nil_r. split_and!; try done.
    intros x. split; [by left|]. intros [?|?]; [done|lia].
  - cbn [for_each]. step. unfold push_one at 1. step.
    unfold len at 1, gets at 1. step. unfold modify at 1.
    unfold defineIndexProp at 1. step. unfold modify at 1.
    unfold emit at 1, modify at 1.
    match goal with |- context [for_each push_one vals ?st] =>
      destruct (IH st) as (s' & fx & -> & Ha & Hi & Hl & Hfx) end.
    simpl in Ha, Hi, Hl.
    exists s', (EDefine (Z.of_nat (length (_array s))) :: fx).
    split; [done|]. split_and!.
    + by rewrite Ha, <- (assoc_L (++)).
    + intros x. rewrite Hi, elem_of_union, elem_of_singleton, length_app.
      simpl. intuition lia.
    + by rewrite Hl, <- (assoc_L (++)).
    + by constructor.
Qed.

Lemma push_spec vals s :
  ∃ s' fx ev, push vals s = (Ret (RNum (Z.of_nat (length (_array s')))), s') ∧
    _array s' = _array s ++ vals ∧
    (∀ x, x ∈ indices s' ↔
          x ∈ indices s ∨
          (Z.of_nat (length (_array s)) ≤ x
             < Z.of_nat (length (_array s) + length vals))%Z) ∧
    log s' = log s ++ fx ++ [EEmit ev] ∧ Forall (λ e, is_emit e = false) fx.
Proof.
  unfold push. step.
  destruct (push_loop vals s) as (s1 & fx & -> & Ha & Hi & Hl & Hfx).
  step. unfold len at 1, gets at 1. step.
  match goal with |- context [core_update ?o ?i ?ov ?nv ?st] =>
    destruct (core_update_frame o i ov nv st) as (s' & -> & Ha' & Hi' & Hl') end.
  step. unfold len, gets, mret, M_ret.
  eexists s', fx, _. split; [done|]. split_and!.
  - by rewrite Ha', Ha.
  - intros x. by rewrite Hi', Hi.
  - by rewrite Hl', Hl, <- (assoc_L (++)).
  - done.
Qed.

Lemma js_splice_insert a i v :
  i ≤ length a →
  js_splice a (Z.of_nat i) (Some 0%Z) [v] = ([], take i a ++ v :: drop i a).
Proof.
  intros Hi. unfold js_splice.
  assert ((Z.of_nat i <? 0)%Z = false) as -> by lia.
  rewrite Z.min_l by lia. rewrite Z.max_r by lia.
  rewrite Z.min_l by lia. rewrite Nat2Z.id. simpl.
  by rewrite Nat.add_0_r, take_0.
Qed.

Lemma unshift_loop_spec vals i s :
  i ≤ length (_array s) →
  ∃ s' fx, unshift_loop i vals s = (Ret tt, s') ∧
    length (_array s') = length (_array s) + length vals ∧
    (∀ x, x ∈ indices s' ↔
          x ∈ indices s ∨
          (Z.of_nat (length (_array s)) ≤ x
             < Z.of_nat (length (_array s) + length vals))%Z) ∧
    log s' = log s ++ fx ∧ Forall (λ e, is_emit e = false) fx.
Proof.
  revert i s. induction vals as [|v vals IH]; intros i s Hi.
  - exists s, []. simpl. rewrite !app_nil_r. split_and!; try done; try lia.
    intros x. split; [by left|]. intros [?|?]; [done|lia].
  - cbn [unshift_loop]. step. unfold modify at 1. step.
    unfold len at 1, gets at 1. step.
    unfold defineIndexProp at 1. step. unfold modify at 1.
    unfold emit at 1, modify at 1.
    cbn [_array with_array with_indices with_log indices log].
    rewrite js_splice_insert by done. cbn [snd].
    match goal with |- context [unshift_loop (S i) vals ?st] =>
      destruct (IH (S i) st) as (s' & fx & -> & Ha & Hx & Hl & Hfx) end.
    { simpl. rewrite length_app, length_take. simpl. rewrite length_drop. lia. }
    simpl in Ha, Hx, Hl.
    assert (length (take i (_array s) ++ v :: drop i (_array s))
            = S (length (_array s))) as Hlen.
    { rewrite length_app, length_take. simpl. rewrite length_drop. lia. }
    rewrite Hlen in *.
    eexists s', _. split; [done|]. split_and!.
    + rewrite Ha. simpl. lia.
    + intros x. rewrite Hx, elem_of_union, elem_of_singleton. simpl.
      intuition lia.
    + by rewrite Hl, <- (assoc_L (++)).
    + by constructor.
Qed.

Lemma unshift_spec vals s :
  ∃ s' fx ev r, unshift vals s = (Ret r, s') ∧
    length (_array s') = length (_array s) + length vals ∧
    (∀ x, x ∈ indices s' ↔
          x ∈ indices s ∨
          (Z.of_nat (length (_array s)) ≤ x
             < Z.of_nat (length (_array s) + length vals))%Z) ∧
    log s' = log s ++ fx ++ [EEmit ev] ∧ Forall (λ e, is_emit e = false) fx.
Proof.
  unfold unshift. step.
  destruct (unshift_loop_spec vals 0 s) as (s1 & fx & -> & Ha & Hi & Hl & Hfx);
    [lia|].
  step.
  match goal with |- context [core_update ?o ?i ?ov ?nv ?st] =>
    destruct (core_update_frame o i ov nv st) as (s' & -> & Ha' & Hi' & Hl') end.
  step. unfold len, gets, mret, M_ret.
  eexists s', fx, _, _. split; [done|]. split_and!.
  - by rewrite Ha', Ha.
  - intros x. by rewrite Hi', Hi.
  - by rewrite Hl', Hl, <- (assoc_L (++)).
  - done.
Qed.

Lemma define_loop d k b s :
  ∃ s' fx,
    repeat_n d k (λ k, defineIndexProp (b + Z.of_nat k)%Z) s = (Ret tt, s') ∧
    _array s' = _array s ∧
    (∀ x, x ∈ indices s' ↔
          x ∈ indices s ∨ (b + Z.of_nat k ≤ x < b + Z.of_nat k + Z.of_nat d)%Z) ∧
    log s' = log s ++ fx ∧ Forall (λ e, is_emit e = false) fx.
Proof.
  revert k s. induction d as [|d IH]; intros k s.
  - exists s, []. simpl. rewrite !app_nil_r. split_and!; try done.
    intros x. intuition lia.
  - cbn [repeat_n]. step. unfold defineIndexProp at 1. step.
    unfold modify at 1. unfold emit at 1, modify at 1.
    match goal with |- context [repeat_n d (S k) _ ?st] =>
      destruct (IH (S k) st) as (s' & fx & -> & Ha & Hx & Hl & Hfx) end.
    simpl in Ha, Hx, Hl.
    eexists s', _. split; [done|]. split_and!.
    + done.
    + intros x. rewrite Hx, elem_of_union, elem_of_singleton. intuition lia.
    + by rewrite Hl, <- (assoc_L (++)).
    + by constructor.
Qed.

Lemma delete_loop d k b s :
  ∃ s' fx,
    repeat_n d k (λ k, delete_index (b - 1 - Z.of_nat k)%Z) s = (Ret tt, s') ∧
    _array s' = _array s ∧
    (∀ x, x ∈ indices s' ↔
          x ∈ indices s ∧
          ¬ (b - Z.of_nat k - Z.of_nat d ≤ x < b - Z.of_nat k)%Z) ∧
    log s' = log s ++ fx ∧ Forall (λ e, is_emit e = false) fx.
Proof.
  revert k s. induction d as [|d IH]; intros k s.
  - exists s, []. simpl. rewrite !app_nil_r. split_and!; try done.
    intros x. intuition lia.
  - cbn [repeat_n]. step. unfold delete_index at 1. step.
    unfold modify at 1. unfold emit at 1, modify at 1.
    match goal with |- context [repeat_n d (S k) _ ?st] =>
      destruct (IH (S k) st) as (s' & fx & -> & Ha & Hx & Hl & Hfx) end.
    simpl in Ha, Hx, Hl.
    eexists s', _. split; [done|]. split_and!.
    + done.
    + intros x. rewrite Hx, elem_of_difference, elem_of_singleton.
      intuition lia.
    + by rewrite Hl, <- (assoc_L (++)).
    + by constructor.
Qed.

Lemma js_splice_length a start dc items :
  length (snd (js_splice a start dc items)) + length (fst (js_splice a start dc items))
  = length a + length items.
Proof.
  unfold js_splice. simpl.
  rewrite !length_app, !length_take, !length_drop. lia.
Qed.

(** [splice] with a [howMany] that is the number of removed elements. *)
Lemma splice_spec index howMany newItems s :
  indices s = index_range (length (_array s)) →
  Z.of_nat (length (fst (js_splice (_array s) index (Some howMany) newItems)))
    = howMany →
  ∃ s' r fx post, splice (Range index howMany newItems) s = (Ret r, s') ∧
    indices s' = index_range (length (_array s')) ∧
    log s' = log s ++ fx ++ post ∧
    Forall (λ e, is_emit e = false) fx ∧
    Forall (λ e, is_emit e = true) post.
Proof.
  intros Hinv Hh. unfold splice. step. unfold len at 1, gets at 1.
  step. unfold gets at 1.
  cbn [splice_index splice_howMany splice_newItems].
  pose proof (js_splice_length (_array s) index (Some howMany) newItems) as Hlen.
  destruct (js_splice (_array s) index (Some howMany) newItems)
    as [spliced arr'] eqn:Hsp.
  simpl in Hh, Hlen.
  step. unfold modify at 1. step. unfold len at 1, gets at 1. step.
  destruct (decide (howMany < Z.of_nat (length newItems))%Z) as [Hgrow|Hgrow].
  - rewrite bool_decide_eq_true_2 by done.
    match goal with |- context [repeat_n ?d 0 _ ?st] =>
      destruct (define_loop d 0 (Z.of_nat (length (_array s))) st)
        as (s1 & fx & -> & Ha & Hx & Hl & Hfx) end.
    step.
    match goal with |- context [updateSplice ?i (Some ?sp) (Some ?ni) ?st] =>
      destruct (updateSplice_frame i sp ni st) as (s' & -> & Ha' & Hx' & _ & Hl') end.
    unfold mret, M_ret. simpl in Ha, Hx, Hl.
    eexists s', _, fx, _. split; [done|]. split_and!.
    + apply set_eq. intros x. rewrite Hx', Hx, Ha', Ha, Hinv.
      rewrite !elem_of_index_range. lia.
    + by rewrite Hl', Hl, <- (assoc_L (++)).
    + done.
    + case_match; by repeat constructor.
  - rewrite bool_decide_eq_false_2 by done.
    destruct (decide (Z.of_nat (length newItems) < howMany)%Z) as [Hshrink|Hsame].
    + rewrite bool_decide_eq_true_2 by done.
      match goal with |- context [repeat_n ?d 0 _ ?st] =>
        destruct (delete_loop d 0 (Z.of_nat (length (_array s))) st)
          as (s1 & fx & -> & Ha & Hx & Hl & Hfx) end.
      step.
      match goal with |- context [updateSplice ?i (Some ?sp) (Some ?ni) ?st] =>
        destruct (updateSplice_frame i sp ni st) as (s' & -> & Ha' & Hx' & _ & Hl') end.
      unfold mret, M_ret. simpl in Ha, Hx, Hl.
      eexists s', _, fx, _. split; [done|]. split_and!.
      * apply set_eq. intros x. rewrite Hx', Hx, Ha', Ha, Hinv.
        rewrite !elem_of_index_range. lia.
      * by rewrite Hl', Hl, <- (assoc_L (++)).
      * done.
      * case_match; by repeat constructor.
    + rewrite bool_decide_eq_false_2 by done. step. unfold mret at 1, M_ret at 1.
      match goal with |- context [updateSplice ?i (Some ?sp) (Some ?ni) ?st] =>
        destruct (updateSplice_frame i sp ni st) as (s' & -> & Ha' & Hx' & _ & Hl') end.
      unfold mret, M_ret. simpl in Ha', Hx', Hl'.
      eexists s', _, [], _. split; [done|]. split_and!.
      * rewrite Hx', Ha', Hinv. f_equal. lia.
      * done.
      * done.
      * case_match; by repeat constructor.
Qed.
End methods.

Section length_calls.
Import PArray.

Lemma before_update_nil is_kind : before_update is_kind [].
Proof. intros i j e e' Hi. by rewrite lookup_nil in Hi. Qed.

Lemma before_update_cells is_kind fx ev :
  Forall (λ e, is_emit e = false) fx →
  (∀ ev, is_kind (EEmit ev) = false) →
  before_update is_kind (fx ++ [EEmit ev]).
Proof.
  intros Hfx Hk. apply cells_then_update; [done|].
  repeat constructor. apply Hk.
Qed.

Lemma before_update_posts is_kind fx post :
  Forall (λ e, is_emit e = false) fx →
  Forall (λ e, is_emit e = true) post →
  (∀ e, is_emit e = true → is_kind e = false) →
  before_update is_kind (fx ++ post).
Proof.
  intros Hfx Hpost Hk. apply cells_then_update; [done|].
  eapply Forall_impl; [done|]. simpl. intros e He. split; [done|by apply Hk].
Qed.

Lemma grown_cells (s s' : State) (n : nat) :
  indices s = index_range (length (_array s)) →
  length (_array s') = length (_array s) + n →
  (∀ x, x ∈ indices s' ↔
        x ∈ indices s ∨
        (Z.of_nat (length (_array s)) ≤ x
           < Z.of_nat (length (_array s) + n))%Z) →
  indices s' = index_range (length (_array s')).
Proof.
  intros Hinv Hlen Hx. apply set_eq. intros x.
  rewrite Hx, Hlen, Hinv, !elem_of_index_range. lia.
Qed.

Lemma shrunk_cells (s s' : State) :
  indices s = index_range (length (_array s)) →
  length (_array s') = length (_array s) - 1 →
  indices s' = indices s ∖ {[Z.of_nat (length (_array s) - 1)]} →
  indices s' = index_range (length (_array s')).
Proof.
  intros Hinv Hlen Hx. apply set_eq. intros x.
  rewrite Hx, Hlen, Hinv, elem_of_difference, elem_of_singleton,
    !elem_of_index_range. lia.
Qed.

(** C5, amended. On an array that exposes the index cells of its elements,
    [push], [pop], [shift], [unshift], and [splice] with a [howMany] that
    is the number of elements it removes, return with the index cells of
    the elements of the new contents, as many as the backing array is long;
    the cells that the call defines, and the cells that it releases, are
    defined and released before the update is handed to the listeners. *)
Theorem length_calls_keep_cells (s : State) (c : Call) :
  indices s = index_range (length (_array s)) →
  removes_howMany s c →
  ∃ r s' fx, call_method c s = (Ret r, s') ∧
    indices s' = index_range (length (_array s')) ∧
    size (indices s') = length (_array s') ∧
    log s' = log s ++ fx ∧
    before_update is_define fx ∧
    before_update is_delete fx.
Proof.
  intros Hinv Hc.
  assert (∃ r s' fx, call_method c s = (Ret r, s') ∧
            indices s' = index_range (length (_array s')) ∧
            log s' = log s ++ fx ∧
            before_update is_define fx ∧ before_update is_delete fx)
    as (r & s' & fx & Hcall & Hinv' & Hlog & Hdef & Hdel).
  { destruct c as [vals| | |vals|[index|index howMany newItems]];
      cbn [call_method]; simpl in Hc.
    - destruct (push_spec vals s) as (s' & fx & ev & Hp & Ha & Hx & Hl & Hfx).
      eexists _, s', (fx ++ [EEmit ev]). split; [done|]. split_and!.
      + eapply (grown_cells s s' (length vals)); [done| |done].
        by rewrite Ha, length_app.
      + done.
      + by apply before_update_cells.
      + by apply before_update_cells.
    - destruct (decide (length (_array s) = 0)) as [Hz|Hnz].
      + exists RUndefined, s, []. unfold pop, mbind, M_bind, gets.
        rewrite bool_decide_eq_true_2 by done. rewrite app_nil_r.
        split_and!; try done; apply before_update_nil.
      + destruct (pop_spec s Hnz) as (s' & v & ev & Hp & Ha & Hx & Hl).
        eexists _, s', _. split; [done|]. split_and!.
        * eapply (shrunk_cells s s'); [done| |done].
          rewrite Ha, length_take. lia.
        * done.
        * by apply (before_update_cells _ [_]); [repeat constructor|].
        * by apply (before_update_cells _ [_]); [repeat constructor|].
    - destruct (decide (length (_array s) = 0)) as [Hz|Hnz].
      + exists RUndefined, s, []. unfold shift, mbind, M_bind, gets.
        rewrite bool_decide_eq_true_2 by done. rewrite app_nil_r.
        split_and!; try done; apply before_update_nil.
      + destruct (shift_spec s Hnz) as (s' & v & ev & Hp & Ha & Hx & Hl).
        eexists _, s', _. split; [done|]. split_and!.
        * eapply (shrunk_cells s s'); [done| |done].
          rewrite Ha. destruct (_array s); simpl; lia.
        * done.
        * by apply (before_update_cells _ [_]); [repeat constructor|].
        * by apply (before_update_cells _ [_]); [repeat constructor|].
    - destruct (unshift_spec vals s)
        as (s' & fx & ev & r & Hp & Ha & Hx & Hl & Hfx).
      eexists _, s', (fx ++ [EEmit ev]). split; [done|]. split_and!.
      + by eapply (grown_cells s s' (length vals)).
      + done.
      + by apply before_update_cells.
      + by apply before_update_cells.
    - done.
    - destruct (splice_spec index howMany newItems s Hinv Hc)
        as (s' & r & fx & post & Hp & Hi & Hl & Hfx & Hpost).
      eexists _, s', (fx ++ post). split; [done|]. split_and!; [done|done| |].
      + apply before_update_posts; [done|done|]. by intros [].
      + apply before_update_posts; [done|done|]. by intros []. }
  exists r, s', fx. split_and!; try done.
  rewrite Hinv'. apply size_index_range.
Qed.

Lemma length_calls_keep_cells_witness :
  ∃ r s' fx, call_method (Splice (Range 1 1 [VNum 7; VNum 8])) idle = (Ret r, s') ∧
    indices s' = index_range (length (_array s')) ∧
    size (indices s') = length (_array s') ∧
    log s' = log idle ++ fx ∧
    before_update is_define fx ∧
    before_update is_delete fx.
Proof.
  apply (length_calls_keep_cells idle (Splice (Range 1 1 [VNum 7; VNum 8]))).
  - vm_compute. reflexivity.
  - reflexivity.
Defined.

(** C5, as stated, fails for [pop]: the trailing index cell is released
    before the update is handed to the listeners, not after. *)
Lemma pop_releases_before_update :
  ¬ ∃ r s' fx, call_method Pop idle = (Ret r, s') ∧
      size (indices s') = length (_array s') ∧
      log s' = log idle ++ fx ∧
      before_update is_define fx ∧
      after_update is_delete fx.
Proof.
  intros (r & s' & fx & Hcall & _ & Hlog & _ & Hafter).
  destruct (pop_spec idle) as (s1 & v & ev & Hp & _ & _ & Hl); [done|].
  simpl in Hcall. rewrite Hp in Hcall. injection Hcall as _ <-.
  rewrite Hl in Hlog. apply app_inv_head in Hlog. subst fx.
  specialize (Hafter 0 1 _ _ eq_refl eq_refl eq_refl eq_refl). lia.
Qed.

(** C10. On an empty array [pop], [shift], [reverse] and [sort] return
    [undefined] and leave the store as it is: the backing array, the index
    cells, and the flow, to which nothing is enqueued. *)
Theorem empty_array_calls_return (s : State)
    (js_sort : list Value → list Value → list Value) (args : list Value) :
  length (_array s) = 0 →
  pop s = (Ret RUndefined, s) ∧
  shift s = (Ret RUndefined, s) ∧
  reverse s = (Ret RUndefined, s) ∧
  sort js_sort args s = (Ret RUndefined, s).
Proof.
  intros Hlen. unfold pop, shift, reverse, sort, mbind, M_bind, gets.
  rewrite !bool_decide_eq_true_2 by done. done.
Qed.

Lemma empty_array_calls_return_witness :
  pop empty_idle = (Ret RUndefined, empty_idle) ∧
  shift empty_idle = (Ret RUndefined, empty_idle) ∧
  reverse empty_idle = (Ret RUndefined, empty_idle) ∧
  sort (λ _ arr, arr) [] empty_idle = (Ret RUndefined, empty_idle).
Proof.
  apply (empty_array_calls_return empty_idle (λ _ arr, arr) []). reflexivity.
Defined.

(** The cells after [splice(1)] on [[1, 2]]: the array is one element long
    and both index cells are still exposed, the number of removed elements
    being taken from the length after the removal. *)
Lemma splice_from_index_keeps_cells :
  ∃ s', call_method (Splice (FromIndex 1)) idle = (Ret (RArray [VNum 2]), s') ∧
        _array s' = [VNum 1] ∧ indices s' = {[0%Z; 1%Z]}.
Proof. eexists. split; [vm_compute; reflexivity|]. split; reflexivity. Qed.
End length_calls.

Section property_facts.
Import Actor Property.

Lemma cell_lookup p c w : cells w !! p = Some c → cell p w = (Ret c, w).
Proof. intros H. unfold cell. by rewrite H. Qed.

(** C2. The setter returns at once, with the store as it was (the value and
    the old value of the property, and the flow, to which nothing is
    enqueued), when the transformations reject the new value or make of it
    a value that is [===] to the current one. *)
Theorem defaultSetter_noop (w : World) (p : nat) (c : t)
    (setter : option (Value → Value)) (x x' : Value) :
  cells w !! p = Some c →
  transform (transforms c) x = Ret x' →
  strict_eq x' BadValue = true ∨ strict_eq (val c) x' = true →
  defaultSetter p setter x w = (Ret tt, w).
Proof.
  intros Hc Hx Heq. unfold defaultSetter. step. rewrite (cell_lookup p c) by done.
  step. rewrite Hx.
  assert (strict_eq x' BadValue || strict_eq (val c) x' = true) as ->.
  { apply orb_true_iff. done. }
  done.
Qed.

Lemma destroy_live (w : World) (p h : nat) (c : t) (host : Host) (f : string) :
  cells w !! p = Some c →
  state c ≠ destroyed →
  proObject c = Some h →
  property c = Some f →
  hosts w !! h = Some host →
  destroy p w =
  (Ret tt,
   {| hosts := <[h := restored_host host f (val c)]> (hosts w);
      cells := <[p := destroyed_cell c]> (cells w);
      flow := flow w; currentCaller := currentCaller w |}).
Proof.
  intros Hc Hs Hh Hf Hhost. unfold destroy at 1. step.
  rewrite (cell_lookup p c) by done.
  rewrite bool_decide_eq_false_2 by done.
  step. unfold set_cell at 1, modify at 1.
  step. unfold doDestroy at 1. step. unfold cell at 1.
  cbn [cells with_cells]. rewrite lookup_insert_eq.
  step. unfold host_of at 1. cbn [proObject hosts with_cells]. rewrite Hh, Hhost.
  step. unfold set_host at 1, modify at 1.
  unfold set_cell at 1, modify at 1.
  step. unfold cell at 1. cbn [cells with_cells with_hosts].
  rewrite lookup_insert_eq.
  unfold set_cell, modify.
  cbn [cells hosts with_cells with_hosts flow currentCaller
       proObject property val oldVal state isStaticTyped listeners transforms
       kind accessors].
  rewrite Hf. cbn [field_key default]. rewrite !insert_insert_eq. done.
Qed.

Lemma destroy_again (w : World) (p : nat) (c : t) :
  cells w !! p = Some c → state c = destroyed → destroy p w = (Ret tt, w).
Proof.
  intros Hc Hs. unfold destroy. step. rewrite (cell_lookup p c) by done.
  by rewrite bool_decide_eq_true_2.
Qed.

(** C7. Destroying a live property removes it from the property table of
    its host and leaves the field as a plain data field (enumerable,
    configurable, writable) that holds the last value; destroying it again
    returns without touching the store. *)
Theorem destroy_restores_field (w : World) (p h : nat) (c : t) (host : Host)
    (f : string) :
  cells w !! p = Some c →
  state c ≠ destroyed →
  proObject c = Some h →
  property c = Some f →
  hosts w !! h = Some host →
  ∃ w1 host1,
    destroy p w = (Ret tt, w1) ∧
    hosts w1 !! h = Some host1 ∧
    properties host1 !! f = None ∧
    fields host1 !! f = Some (Data (val c) true true true) ∧
    destroy p w1 = (Ret tt, w1).
Proof.
  intros Hc Hs Hh Hf Hhost.
  rewrite (destroy_live w p h c host f) by done.
  eexists _, _. split; [done|]. cbn [hosts]. split_and!.
  - apply lookup_insert_eq.
  - apply lookup_delete_eq.
  - apply lookup_insert_eq.
  - apply (destroy_again _ p (destroyed_cell c)); [|done].
    apply lookup_insert_eq.
Qed.

Lemma destroy_restores_field_witness :
  ∃ w1 host1,
    destroy 1 (scalar_world false) = (Ret tt, w1) ∧
    hosts w1 !! 0 = Some host1 ∧
    properties host1 !! "v" = None ∧
    fields host1 !! "v" = Some (Data (VNum 5) true true true) ∧
    destroy 1 w1 = (Ret tt, w1).
Proof.
  apply (destroy_restores_field (scalar_world false) 1 0 (scalar_cell false)
           {| fields := {[ "v" := Accessor 1 ]};
              properties := {[ "v" := 1 ]}; statics := None |} "v");
    first [reflexivity | discriminate].
Defined.

(** Deferring listeners in an open run changes the flow and nothing else. *)
Lemma defer_all_frame ev (ls : list Listener.t) w :
  Flow.running (flow w) = true →
  ∃ f, for_each (λ l : Listener.t,
         flow_enqueue flow with_flow true
           (fst (Listener.target l)) (snd (Listener.target l)) ev) ls w
       = (Ret tt, with_flow f w) ∧ Flow.running f = true.
Proof.
  revert w. induction ls as [|l ls IH]; intros w Hrun.
  - exists (flow w). split; [destruct w; reflexivity|done].
  - cbn [for_each]. step. unfold flow_enqueue at 1, Flow.isRunning.
    rewrite Hrun.
    match goal with |- context [for_each _ ls ?st] =>
      destruct (IH st) as (f & -> & Hf); [done|] end.
    exists f. split; [|done]. destruct w; reflexivity.
Qed.

Lemma update_live p c w :
  cells w !! p = Some c →
  ∃ f, update p w = (Ret tt, with_flow f w).
Proof.
  intros Hc. unfold update. step. rewrite (cell_lookup p c) by done.
  case_bool_decide.
  - unfold flow_run, Flow.isRunning.
    destruct (Flow.running (flow w)) eqn:Hrun.
    + destruct (defer_all_frame (makeEvent c) (listeners c) w Hrun) as (f & -> & _).
      by exists f.
    + destruct (defer_all_frame (makeEvent c) (listeners c)
                  (with_flow (Flow.open (flow w)) w)) as (f & -> & _); [done|].
      eexists. destruct w; reflexivity.
  - exists (flow w). destruct w; reflexivity.
Qed.

(** The setter on a statically typed property whose new value is of
    another category: the value is stored in the cell that is kept, and
    the call ends in a [TypeError], [reProb] having returned [undefined];
    no listener is notified. *)
Lemma defaultSetter_static_raises (w : World) (p : nat) (c : t)
    (setter : option (Value → Value)) (x x' : Value) :
  cells w !! p = Some c →
  isStaticTyped c = true →
  transform (transforms c) x = Ret x' →
  strict_eq x' BadValue = false →
  strict_eq (val c) x' = false →
  kind c ≠ Types.auto →
  Types.type (match setter with Some f => f x' | None => x' end) ≠ kind c →
  defaultSetter p setter x w =
  (Throw TypeError,
   with_cells (<[p :=
     {| proObject := proObject c; property := property c;
        val := match setter with Some f => f x' | None => x' end;
        oldVal := val c; state := state c; isStaticTyped := isStaticTyped c;
        listeners := listeners c; transforms := transforms c;
        kind := kind c; accessors := accessors c |}]> (cells w)) w).
Proof.
  intros Hc Hst Hx Hbad Heq Hauto Hty. unfold defaultSetter. step.
  rewrite (cell_lookup p c) by done. step. rewrite Hx, Hbad, Heq. cbn [orb].
  step. unfold set_cell at 1, modify at 1.
  rewrite !bool_decide_eq_true_2 by done. cbn [andb].
  step. unfold reProb. step. unfold cell at 1. cbn [cells with_cells].
  rewrite lookup_insert_eq. cbn [isStaticTyped]. rewrite Hst. done.
Qed.

Lemma makeProp_data (w : World) (h : nat) (host : Host) (f : string)
    (v : Value) (e cf wr : bool) (ls : list Listener.t) :
  hosts w !! h = Some host →
  fields host !! f = Some (Data v e cf wr) →
  makeProp h f ls w =
  (Ret (fresh (dom (cells w))),
   {| hosts := <[h := bound_host host f (fresh (dom (cells w)))]> (hosts w);
      cells := <[fresh (dom (cells w)) := built_cell h host f v ls]> (cells w);
      flow := flow w; currentCaller := currentCaller w |}).
Proof.
  intros Hhost Hf. unfold makeProp. step. rewrite Hhost.
  step. unfold read_field at 1. rewrite Hf. unfold mret at 1, M_ret at 1.
  step. unfold gets at 1. step. unfold construct. step. rewrite Hhost.
  step. unfold set_host at 1, modify at 1.
  step. unfold read_field at 1. rewrite Hf. unfold mret at 1, M_ret at 1.
  step. unfold set_host at 1, modify at 1.
  unfold set_cell at 1, modify at 1.
  step. unfold cell at 1. cbn [cells with_cells with_hosts].
  rewrite lookup_insert_eq.
  step. unfold set_cell, modify, mret, M_ret.
  cbn [cells hosts with_cells with_hosts flow currentCaller
       proObject property val oldVal state isStaticTyped listeners transforms
       kind accessors].
  rewrite !insert_insert_eq. done.
Qed.

(** The setter on a ready property that is neither automatic nor
    statically typed, with a new value of another category: the cell is
    destroyed, and the field of the host is bound to a new cell of the
    category of the stored value, which takes over the listeners. *)
Lemma defaultSetter_rebuilds (w : World) (p h : nat) (c : t) (host : Host)
    (f : string) (setter : option (Value → Value)) (x x' : Value) :
  cells w !! p = Some c →
  state c = ready →
  isStaticTyped c = false →
  proObject c = Some h →
  property c = Some f →
  hosts w !! h = Some host →
  transform (transforms c) x = Ret x' →
  strict_eq x' BadValue = false →
  strict_eq (val c) x' = false →
  kind c ≠ Types.auto →
  Types.type (match setter with Some g => g x' | None => x' end) ≠ kind c →
  ∃ q w' host' c' cq,
    defaultSetter p setter x w = (Ret tt, w') ∧
    (q ∉ dom (cells w)) ∧
    cells w' !! p = Some c' ∧ state c' = destroyed ∧
    hosts w' !! h = Some host' ∧
    properties host' !! f = Some q ∧
    fields host' !! f = Some (Accessor q) ∧
    cells w' !! q = Some cq ∧
    state cq = ready ∧
    val cq = match setter with Some g => g x' | None => x' end ∧
    kind cq = Types.type (val cq) ∧
    listeners cq = listeners c.
Proof.
  intros Hc Hs Hst Hh Hf Hhost Hx Hbad Heq Hauto Hty.
  set (stored := match setter with Some g => g x' | None => x' end) in *.
  destruct c as [po pn v ov st sta ls ts k acc].
  cbn [state isStaticTyped proObject property val transforms kind listeners] in *.
  subst st sta po pn.
  set (c1 := {| proObject := Some h; property := Some f; val := stored;
                oldVal := v; state := ready; isStaticTyped := false;
                listeners := ls; transforms := ts; kind := k;
                accessors := acc |}).
  unfold defaultSetter. step.
  erewrite cell_lookup by done. step.
  cbn [state isStaticTyped proObject property val transforms kind listeners
       oldVal accessors].
  rewrite Hx, Hbad, Heq. cbn [orb].
  step. unfold set_cell at 1, modify at 1.
  fold stored. fold c1. rewrite !bool_decide_eq_true_2 by done. cbn [andb].
  step. unfold reProb. step. unfold cell at 1. cbn [cells with_cells].
  rewrite lookup_insert_eq. cbn [c1 isStaticTyped state proObject property listeners].
  rewrite bool_decide_eq_false_2 by (intros ?; done). cbn [orb].
  step. fold c1.
  match goal with |- context [destroy p ?st] =>
    rewrite (destroy_live st p h c1 host f) end.
  2: apply lookup_insert_eq.
  2-5: done.
  cbn [field_key default id]. subst c1.
  cbn [val hosts cells with_cells flow currentCaller]. step.
  match goal with |- context [makeProp h f ?l ?st] =>
    rewrite (makeProp_data st h (restored_host host f stored) f stored
               true true true l) end.
  2, 3: apply lookup_insert_eq.
  unfold mret at 1, M_ret at 1.
  cbn [cells hosts with_cells flow currentCaller val].
  rewrite !insert_insert_eq.
  match goal with |- context [fresh ?d] => set (q := fresh d);
    assert (q ∉ d) as Hq by apply is_fresh end.
  rewrite dom_insert_L in Hq.
  assert (q ≠ p) as Hqp by set_solver.
  match goal with |- context [update q ?st] =>
    destruct (update_live q (built_cell h (restored_host host f stored) f stored
                               ls) st) as (fl & ->) end.
  { apply lookup_insert_eq. }
  eexists q, _, _, _, _. split; [done|].
  cbn [cells hosts with_flow]. split_and!.
  - set_solver.
  - rewrite lookup_insert_ne by done. apply lookup_insert_eq.
  - done.
  - apply lookup_insert_eq.
  - cbn [bound_host properties]. apply lookup_insert_eq.
  - cbn [bound_host fields]. apply lookup_insert_eq.
  - apply lookup_insert_eq.
  - done.
  - done.
  - done.
  - done.
Qed.

(** C3, at the failing input. The property of the field [v] of [{v: 5}],
    [v] being declared static, is set to an array: the cell stays in the
    property table and takes the array as its value, but the call ends in
    a [TypeError], and the listener [fn1] is not notified. *)
Theorem defaultSetter_static_category_change :
  ∃ w' host c',
    defaultSetter 1 None (VArr 7) (scalar_world true) = (Throw TypeError, w') ∧
    hosts w' !! 0 = Some host ∧
    properties host !! "v" = Some 1 ∧
    fields host !! "v" = Some (Accessor 1) ∧
    cells w' !! 1 = Some c' ∧
    state c' = ready ∧ val c' = VArr 7 ∧ oldVal c' = VNum 5 ∧
    flow w' = flow (scalar_world true).
Proof.
  rewrite (defaultSetter_static_raises (scalar_world true) 1 (scalar_cell true)
             None (VArr 7) (VArr 7)); try done.
  eexists _, _, _. split; [done|]. cbn [hosts cells flow with_cells]. split_and!.
  - reflexivity.
  - reflexivity.
  - reflexivity.
  - apply lookup_insert_eq.
  - done.
  - done.
  - done.
  - done.
Qed.

Lemma on_spec p l c w :
  cells w !! p = Some c →
  on p l w =
  if bool_decide (Listener.property l = Some p) then (Throw Misuse, w)
  else if bool_decide (state c = destroyed) || bool_decide (l ∈ listeners c)
  then (Ret tt, w)
  else (Ret tt,
        with_cells (<[p :=
          {| proObject := proObject c; property := property c; val := val c;
             oldVal := oldVal c; state := state c;
             isStaticTyped := isStaticTyped c;
             listeners := listeners c ++ [l]; transforms := transforms c;
             kind := kind c; accessors := accessors c |}]> (cells w)) w).
Proof.
  intros Hc. unfold on. step. rewrite (cell_lookup p c) by done.
  repeat case_match; done.
Qed.

Lemma on_well_subscribed p l w :
  well_subscribed p w → well_subscribed p (snd (on p l w)).
Proof.
  intros (c & Hc & Hnd & Hself). rewrite (on_spec p l c) by done.
  case_bool_decide as Hl; [by exists c|].
  destruct (bool_decide (state c = destroyed)); [by exists c|]. cbn [orb].
  case_bool_decide as Hin; [by exists c|].
  eexists. cbn [snd cells with_cells]. split; [apply lookup_insert_eq|].
  cbn [listeners]. split.
  - apply NoDup_app. split_and!; [done| |apply NoDup_singleton].
    intros x Hx ->%list_elem_of_singleton. done.
  - intros x [Hx| ->%list_elem_of_singleton]%elem_of_app; [by apply Hself|done].
Qed.

Lemma addCaller_well_subscribed p w :
  well_subscribed p w → well_subscribed p (snd (addCaller p w)).
Proof.
  intros Hw. unfold addCaller. step. unfold gets at 1.
  destruct (currentCaller w) as [caller|]; [|done].
  case_bool_decide; [by apply on_well_subscribed|done].
Qed.

(** Reading a property under a caller that belongs to the property itself
    subscribes nobody. *)
Lemma defaultGetter_own_caller p c caller w :
  cells w !! p = Some c →
  currentCaller w = Some caller →
  Listener.property caller = Some p →
  defaultGetter p w = (Ret (val c), w).
Proof.
  intros Hc Hcaller Hown. unfold defaultGetter. step.
  unfold addCaller. step. unfold gets at 1. rewrite Hcaller.
  rewrite bool_decide_eq_false_2 by (intros ?; done).
  unfold mret at 1, M_ret at 1. step. by rewrite (cell_lookup p c).
Qed.

(** C9. The listeners of a property hold no listener twice and no
    listener of the property itself, and subscribing, unsubscribing,
    tracking the current caller and reading the property keep it so; a
    read under a current caller that belongs to the property returns the
    value and leaves the store, and with it the listeners, as it was. *)
Theorem listeners_stay_well_subscribed (w : World) (p : nat) :
  well_subscribed p w →
  (∀ a, well_subscribed p (snd (subscription a p w))) ∧
  (∀ c caller,
     cells w !! p = Some c →
     currentCaller w = Some caller →
     Listener.property caller = Some p →
     defaultGetter p w = (Ret (val c), w)).
Proof.
  intros Hw. split; [|intros c caller; apply defaultGetter_own_caller].
  intros [l|l| |]; cbn [subscription].
  - by apply on_well_subscribed.
  - destruct Hw as (c & Hc & Hnd & Hself). unfold off. step.
    rewrite (cell_lookup p c) by done. unfold set_cell, modify.
    eexists. cbn [snd cells with_cells]. split; [apply lookup_insert_eq|].
    cbn [listeners]. split.
    + by apply NoDup_filter.
    + intros x [_ Hx]%list_elem_of_filter. by apply Hself.
  - by apply addCaller_well_subscribed.
  - step. unfold defaultGetter. step.
    pose proof (addCaller_well_subscribed p w Hw) as Hw'.
    destruct (addCaller p w) as [[[]|e] w1]; [|done].
    cbn [snd] in Hw'. destruct Hw' as (c & Hc & Hw').
    step. rewrite (cell_lookup p c) by done.
    unfold mret, M_ret. cbn [snd]. by exists c.
Qed.

Lemma listeners_stay_well_subscribed_witness :
  (∀ a, well_subscribed 1 (snd (subscription a 1 reading_world))) ∧
  (∀ c caller,
     cells reading_world !! 1 = Some c →
     currentCaller reading_world = Some caller →
     Listener.property caller = Some 1 →
     defaultGetter 1 reading_world = (Ret (val c), reading_world)).
Proof.
  apply (listeners_stay_well_subscribed reading_world 1).
  exists (scalar_cell false). split; [reflexivity|]. split.
  - simpl. apply NoDup_singleton.
  - simpl. intros l Hl. apply list_elem_of_singleton in Hl. subst l.
    discriminate.
Defined.

Lemma defaultSetter_noop_witness :
  defaultSetter 1 None (VNum 5) (scalar_world false)
  = (Ret tt, scalar_world false).
Proof.
  apply (defaultSetter_noop (scalar_world false) 1 (scalar_cell false) None
           (VNum 5) (VNum 5)).
  - reflexivity.
  - reflexivity.
  - right. reflexivity.
Defined.
End property_facts.

Section stream_facts.
Import Actor Stream.

Lemma pushOnce_old_or_sent old v ls o m q :
  (o, m) ∈ Listener.target <$> ls →
  Forall (old_or_sent old v ls) q →
  Forall (old_or_sent old v ls) (Flow.pushOnce o m v q).
Proof.
  intros Hk. induction 1 as [|i q Hi Hq IH]; simpl.
  - constructor; [by right|constructor].
  - case_bool_decide; constructor; try done. by right.
Qed.

Lemma push_old_or_sent old v ls o m q :
  (o, m) ∈ Listener.target <$> ls →
  Forall (old_or_sent old v ls) q →
  Forall (old_or_sent old v ls) (Flow.push o m v q).
Proof.
  intros Hk Hq. unfold Flow.push. apply Forall_app. split; [done|].
  constructor; [by right|constructor].
Qed.

(** Deferring an event to some of the listeners [ls], in an open run. *)
Lemma defer_loop_sent old v ls (some : list Listener.t) s :
  some ⊆ ls →
  Flow.running (flow s) = true →
  Forall (old_or_sent old v ls) (Flow.pending (flow s)) →
  ∃ q, for_each (defer v) some s =
       (Ret tt, with_flow {| Flow.running := true; Flow.pending := q;
                             Flow.delivered := Flow.delivered (flow s) |} s) ∧
       Forall (old_or_sent old v ls) q.
Proof.
  revert s. induction some as [|l some IH]; intros s Hsub Hrun Hq.
  - exists (Flow.pending (flow s)). split; [|done].
    destruct s as [? ? ? [r p d]]. simpl in *. by subst r.
  - assert (Listener.target l ∈ Listener.target <$> ls) as Hl.
    { apply list_elem_of_fmap. exists l. split; [done|]. apply Hsub. left. }
    assert (some ⊆ ls) as Hsub'.
    { intros x Hx. apply Hsub. by right. }
    cbn [for_each]. step.
    assert (∀ once o m, (o, m) ∈ Listener.target <$> ls →
      ∃ q, flow_enqueue flow with_flow once o m v s =
        (Ret tt, with_flow {| Flow.running := true; Flow.pending := q;
                              Flow.delivered := Flow.delivered (flow s) |} s) ∧
        Forall (old_or_sent old v ls) q) as Henq.
    { intros once o m Hk. unfold flow_enqueue, Flow.isRunning. rewrite Hrun.
      unfold Flow.enqueue. rewrite Hrun. eexists. split; [done|].
      destruct once; [by apply pushOnce_old_or_sent|by apply push_old_or_sent]. }
    assert (∃ q, defer v l s =
        (Ret tt, with_flow {| Flow.running := true; Flow.pending := q;
                              Flow.delivered := Flow.delivered (flow s) |} s) ∧
        Forall (old_or_sent old v ls) q) as (q & -> & Hq').
    { unfold defer. unfold Listener.target in Hl.
      destruct (Listener.property l).
      - apply Henq. unfold Listener.target.
        by destruct (Listener.callable l).
      - destruct (Listener.callable l); by apply Henq. }
    destruct (IH (with_flow {| Flow.running := true; Flow.pending := q;
                               Flow.delivered := Flow.delivered (flow s) |} s))
      as (q' & -> & Hq''); [done|done|done|].
    exists q'. split; [|done]. by destruct s.
Qed.

Lemma update_sent v ls (callbacks : option (list Listener.t)) s :
  default (listeners s) callbacks = ls →
  ∃ s', update v callbacks s = (Ret tt, s') ∧
        delivers_only (flow s) (flow s') v ls ∧
        listeners s' = listeners s ∧ errListeners s' = errListeners s.
Proof.
  intros Hls. unfold update, flow_run, Flow.isRunning, makeEvent.
  destruct (Flow.running (flow s)) eqn:Hrun.
  - step. unfold gets at 1. rewrite Hls.
    destruct (defer_loop_sent (Flow.scheduled (flow s)) v ls ls s)
      as (q & -> & Hq); [done|done| |].
    { apply Forall_forall. intros i Hi. left. unfold Flow.scheduled.
      apply elem_of_app. by right. }
    eexists. split; [done|]. split; [|by destruct s].
    unfold delivers_only, Flow.scheduled at 2. destruct s as [? ? ? [r p d]].
    simpl in *. apply Forall_app. split; [|done].
    apply Forall_forall. intros i Hi. left. unfold Flow.scheduled.
    apply elem_of_app. by left.
  - step. unfold gets at 1. cbn [listeners with_flow]. rewrite Hls.
    destruct (defer_loop_sent (Flow.scheduled (flow s)) v ls ls
                (with_flow (Flow.open (flow s)) s))
      as (q & -> & Hq); [done|done|by constructor|].
    eexists. split; [done|]. split; [|by destruct s].
    unfold delivers_only, Flow.scheduled at 2. destruct s as [? ? ? [r p d]].
    simpl in *. rewrite app_nil_r. apply Forall_app. split; [|done].
    apply Forall_forall. intros i Hi. left. unfold Flow.scheduled.
    apply elem_of_app. by left.
Qed.


End stream_facts.

Section diff_facts.
Import U.




Lemma script_cons x old y new :
  script (x :: old) (y :: new) =
  if strict_eq x y then Keep x :: script old new
  else if bool_decide (cost (Del x :: script old (y :: new))
                       ≤ cost (Ins y :: script (x :: old) new))
       then Del x :: script old (y :: new)
       else Ins y :: script (x :: old) new.
Proof. done. Qed.















End diff_facts.

Section updateByDiff_facts.
Import PArray.


End updateByDiff_facts.

Section array_round_trips.
Import PArray.

(** [pop] on an array that is not empty, in full. *)
Lemma pop_last s v :
  last (_array s) = Some v →
  ∃ s', pop s = (Ret (RVal v), s') ∧
    _array s' = take (length (_array s) - 1) (_array s) ∧
    indices s' = indices s ∖ {[Z.of_nat (length (_array s) - 1)]} ∧
    log s' = log s ++
      [EDelete (Z.of_nat (length (_array s) - 1));
       EEmit (makeEvent Operations.remove (Z.of_nat (length (_array s) - 1))
                (PVal v) PNull)].
Proof.
  intros Hlast.
  assert (length (_array s) ≠ 0) as Hlen.
  { destruct (_array s); [done|simpl; lia]. }
  unfold pop. step. unfold gets at 1.
  rewrite bool_decide_eq_false_2 by done.
  step. unfold modify at 1. step. unfold len at 1, gets at 1.
  step. unfold delete_index at 1. step. unfold modify at 1.
  unfold emit at 1, modify at 1. step. unfold len at 1, gets at 1. step.
  match goal with |- context [core_update ?o ?i ?ov ?nv ?st] =>
    destruct (core_update_frame o i ov nv st) as (s' & -> & Ha & Hi & Hl) end.
  simpl in Ha, Hi, Hl. unfold mret, M_ret. rewrite Hlast. simpl.
  assert (length (take (length (_array s) - 1) (_array s))
          = length (_array s) - 1) as Ht by (rewrite length_take; lia).
  rewrite Ht, ?Hlast in Hi, Hl. simpl in Hl.
  exists s'. split; [reflexivity|]. split_and!; [done|done|].
  by rewrite Hl, Hlast, <- (assoc_L (++)).
Qed.

(** [shift] on an array that is not empty, in full. *)
Lemma shift_first s v :
  head (_array s) = Some v →
  ∃ s', shift s = (Ret (RVal v), s') ∧
    _array s' = tail (_array s) ∧
    indices s' = indices s ∖ {[Z.of_nat (length (_array s) - 1)]} ∧
    log s' = log s ++
      [EDelete (Z.of_nat (length (_array s) - 1));
       EEmit (makeEvent Operations.remove 0 (PVal v) PNull)].
Proof.
  intros Hhead.
  assert (length (_array s) ≠ 0) as Hlen.
  { destruct (_array s); [done|simpl; lia]. }
  unfold shift. step. unfold gets at 1.
  rewrite bool_decide_eq_false_2 by done.
  step. unfold modify at 1. step. unfold len at 1, gets at 1.
  step. unfold delete_index at 1. step. unfold modify at 1.
  unfold emit at 1, modify at 1. step.
  match goal with |- context [core_update ?o ?i ?ov ?nv ?st] =>
    destruct (core_update_frame o i ov nv st) as (s' & -> & Ha & Hi & Hl) end.
  simpl in Ha, Hi, Hl. unfold mret, M_ret. rewrite Hhead. simpl.
  assert (length (tail (_array s)) = length (_array s) - 1) as Ht
    by (destruct (_array s); simpl; lia).
  rewrite Ht in Hi, Hl.
  exists s'. split; [reflexivity|]. split_and!; [done|done|].
  by rewrite Hl, Hhead, <- (assoc_L (++)).
Qed.

(** The loop of [push], in full. *)
Lemma push_loop_full vals s :
  ∃ s', for_each push_one vals s = (Ret tt, s') ∧
    _array s' = _array s ++ vals ∧
    (∀ x, x ∈ indices s' ↔
          x ∈ indices s ∨
          (Z.of_nat (length (_array s)) ≤ x
             < Z.of_nat (length (_array s) + length vals))%Z) ∧
    log s' = log s ++
      ((λ k, EDefine (Z.of_nat k)) <$> seq (length (_array s)) (length vals)).
Proof.
  revert s. induction vals as [|v vals IH]; intros s.
  - exists s. simpl. rewrite !app_nil_r. split_and!; try done.
    intros x. split; [by left|]. intros [?|?]; [done|lia].
  - cbn [for_each]. step. unfold push_one at 1. step.
    unfold len at 1, gets at 1. step. unfold modify at 1.
    unfold defineIndexProp at 1. step. unfold modify at 1.
    unfold emit at 1, modify at 1.
    match goal with |- context [for_each push_one vals ?st] =>
      destruct (IH st) as (s' & -> & Ha & Hi & Hl) end.
    simpl in Ha, Hi, Hl. rewrite length_app in Hi, Hl. simpl in Hi, Hl.
    exists s'. split; [done|]. split_and!.
    + by rewrite Ha, <- (assoc_L (++)).
    + intros x. rewrite Hi, elem_of_union, elem_of_singleton.
      simpl. intuition lia.
    + rewrite Hl, <- (assoc_L (++)). simpl.
      by rewrite Nat.add_1_r.
Qed.

Lemma push_full vals s :
  ∃ s', push vals s
        = (Ret (RNum (Z.of_nat (length (_array s) + length vals))), s') ∧
    _array s' = _array s ++ vals ∧
    (∀ x, x ∈ indices s' ↔
          x ∈ indices s ∨
          (Z.of_nat (length (_array s)) ≤ x
             < Z.of_nat (length (_array s) + length vals))%Z) ∧
    log s' = log s ++
      ((λ k, EDefine (Z.of_nat k)) <$> seq (length (_array s)) (length vals)) ++
      [EEmit (makeEvent Operations.add
                (Z.of_nat (length (_array s) + length vals) - 1)
                PNull (PArr vals))].
Proof.
  unfold push. step.
  destruct (push_loop_full vals s) as (s1 & -> & Ha & Hi & Hl).
  step. unfold len at 1, gets at 1. step.
  match goal with |- context [core_update ?o ?i ?ov ?nv ?st] =>
    destruct (core_update_frame o i ov nv st) as (s' & -> & Ha' & Hi' & Hl') end.
  step. unfold len, gets, mret, M_ret.
  rewrite Ha', Ha, length_app.
  exists s'. split; [done|]. split_and!.
  - by rewrite Ha', Ha.
  - intros x. by rewrite Hi', Hi.
  - rewrite Hl', Hl, Ha, length_app, <- (assoc_L (++)). done.
Qed.

(** The loop of [unshift], in full. *)
Lemma unshift_loop_full vals i s :
  i ≤ length (_array s) →
  ∃ s', unshift_loop i vals s = (Ret tt, s') ∧
    _array s' = take i (_array s) ++ vals ++ drop i (_array s) ∧
    (∀ x, x ∈ indices s' ↔
          x ∈ indices s ∨
          (Z.of_nat (length (_array s)) ≤ x
             < Z.of_nat (length (_array s) + length vals))%Z) ∧
    log s' = log s ++
      ((λ k, EDefine (Z.of_nat k)) <$> seq (length (_array s)) (length vals)).
Proof.
  revert i s. induction vals as [|v vals IH]; intros i s Hi.
  - exists s. simpl. rewrite !app_nil_r, take_drop. split_and!; try done.
    intros x. split; [by left|]. intros [?|?]; [done|lia].
  - cbn [unshift_loop]. step. unfold modify at 1. step.
    unfold len at 1, gets at 1. step.
    unfold defineIndexProp at 1. step. unfold modify at 1.
    unfold emit at 1, modify at 1.
    cbn [_array with_array with_indices with_log indices log].
    rewrite js_splice_insert by done. cbn [snd].
    assert (length (take i (_array s) ++ v :: drop i (_array s))
            = S (length (_array s))) as Hlen.
    { rewrite length_app, length_take. simpl. rewrite length_drop. lia. }
    match goal with |- context [unshift_loop (S i) vals ?st] =>
      destruct (IH (S i) st) as (s' & -> & Ha & Hx & Hl) end.
    { simpl. rewrite Hlen. lia. }
    simpl in Ha, Hx, Hl. rewrite Hlen in Hx, Hl.
    exists s'. split; [done|]. split_and!.
    + rewrite Ha.
      assert (take (S i) (take i (_array s) ++ v :: drop i (_array s))
              = take i (_array s) ++ [v]) as ->.
      { rewrite take_app_ge; rewrite length_take; [|lia].
        replace (S i - i `min` length (_array s)) with 1 by lia. done. }
      assert (drop (S i) (take i (_array s) ++ v :: drop i (_array s))
              = drop i (_array s)) as ->.
      { rewrite drop_app_ge; rewrite length_take; [|lia].
        replace (S i - i `min` length (_array s)) with 1 by lia. done. }
      by rewrite <- !(assoc_L (++)).
    + intros x. rewrite Hx, elem_of_union, elem_of_singleton. simpl.
      intuition lia.
    + rewrite Hl, <- (assoc_L (++)). simpl. do 3 f_equal. lia.
Qed.

Lemma unshift_full vals s :
  ∃ s', unshift vals s
        = (Ret (RNum (Z.of_nat (length (_array s) + length vals))), s') ∧
    _array s' = vals ++ _array s ∧
    (∀ x, x ∈ indices s' ↔
          x ∈ indices s ∨
          (Z.of_nat (length (_array s)) ≤ x
             < Z.of_nat (length (_array s) + length vals))%Z) ∧
    log s' = log s ++
      ((λ k, EDefine (Z.of_nat k)) <$> seq (length (_array s)) (length vals)) ++
      [EEmit (makeEvent Operations.add 0 PNull (PArr vals))].
Proof.
  unfold unshift. step.
  destruct (unshift_loop_full vals 0 s) as (s1 & -> & Ha & Hi & Hl); [lia|].
  rewrite take_0, drop_0 in Ha. simpl in Ha.
  step.
  match goal with |- context [core_update ?o ?i ?ov ?nv ?st] =>
    destruct (core_update_frame o i ov nv st) as (s' & -> & Ha' & Hi' & Hl') end.
  step. unfold len, gets, mret, M_ret.
  rewrite Ha', Ha, length_app.
  exists s'. split.
  { do 3 f_equal. lia. }
  split_and!.
  - by rewrite Ha', Ha.
  - intros x. by rewrite Hi', Hi.
  - by rewrite Hl', Hl, <- (assoc_L (++)).
Qed.

Lemma reverse_full s :
  length (_array s) ≠ 0 →
  ∃ s', reverse s = (Ret (RArray (rev (_array s))), s') ∧
    _array s' = rev (_array s) ∧
    indices s' = indices s ∧
    log s' = log s ++ [EEmit (makeEvent Operations.reverse (-1) PNull PNull)].
Proof.
  intros Hlen. unfold reverse. step. unfold gets at 1.
  rewrite bool_decide_eq_false_2 by done.
  step. unfold modify at 1. step.
  match goal with |- context [core_update ?o ?i ?ov ?nv ?st] =>
    destruct (core_update_frame o i ov nv st) as (s' & -> & Ha & Hi & Hl) end.
  simpl in Ha, Hi, Hl. step. unfold gets, mret, M_ret. rewrite Ha.
  by exists s'.
Qed.

Lemma restored_cells (s s2 : State) (n : nat) :
  indices s = index_range (length (_array s)) →
  (∀ x, x ∈ indices s2 ↔
        (x ∈ indices s ∨
         (Z.of_nat (length (_array s)) ≤ x < Z.of_nat (length (_array s) + 1))%Z)
        ∧ x ≠ Z.of_nat (length (_array s))) →
  indices s2 = indices s.
Proof.
  intros Hinv Hx. apply set_eq. intros x. rewrite Hx, Hinv.
  rewrite elem_of_index_range. lia.
Qed.
End array_round_trips.

Section array_extras.
Import PArray.

(** X1. [push] appends its arguments in order and returns the new length;
    it defines one index cell for each of them, at the indices they get,
    and then hands one [add] event to the listeners, with the index of the
    last element and the arguments. *)
Theorem push_appends_in_order (s : State) (vals : list Value) :
  ∃ s', push vals s
        = (Ret (RNum (Z.of_nat (length (_array s) + length vals))), s') ∧
    _array s' = _array s ++ vals ∧
    (∀ x, x ∈ indices s' ↔
          x ∈ indices s ∨
          (Z.of_nat (length (_array s)) ≤ x
             < Z.of_nat (length (_array s) + length vals))%Z) ∧
    log s' = log s ++
      ((λ k, EDefine (Z.of_nat k)) <$> seq (length (_array s)) (length vals)) ++
      [EEmit (makeEvent Operations.add
                (Z.of_nat (length (_array s) + length vals) - 1)
                PNull (PArr vals))].
Proof. apply push_full. Qed.

(** X2. [pop] after [push] returns the argument pushed last and leaves the
    array with the other arguments appended, exposing the index cells of
    its elements. *)
Theorem push_then_pop (s : State) (vals : list Value) (v : Value) :
  indices s = index_range (length (_array s)) →
  ∃ s2, (push (vals ++ [v]);; pop) s = (Ret (RVal v), s2) ∧
    _array s2 = _array s ++ vals ∧
    indices s2 = index_range (length (_array s2)).
Proof.
  intros Hinv. step.
  destruct (push_full (vals ++ [v]) s) as (s1 & -> & Ha & Hi & _).
  destruct (pop_last s1 v) as (s2 & -> & Ha2 & Hi2 & _).
  { by rewrite Ha, (assoc_L (++)), last_snoc. }
  exists s2. split; [done|].
  assert (_array s2 = _array s ++ vals) as Ha2'.
  { rewrite Ha2, Ha, (assoc_L (++)), length_app. simpl.
    rewrite Nat.add_1_r. simpl. rewrite Nat.sub_0_r.
    by rewrite take_app_length. }
  split; [done|]. apply set_eq. intros x.
  rewrite Hi2, elem_of_difference, elem_of_singleton, Hi, Hinv, Ha2', Ha.
  rewrite !elem_of_index_range, !length_app. simpl. lia.
Qed.

Lemma push_then_pop_witness :
  ∃ s2, (push ([VNum 3] ++ [VNum 4]);; pop) idle = (Ret (RVal (VNum 4)), s2) ∧
    _array s2 = _array idle ++ [VNum 3] ∧
    indices s2 = index_range (length (_array s2)).
Proof.
  apply (push_then_pop idle [VNum 3] (VNum 4)). vm_compute. reflexivity.
Defined.

(** X3. [unshift] puts its arguments in front of the elements, in the
    order of the call, and returns the new length; the index cells it
    defines are the trailing ones, and the one [add] event it hands to the
    listeners is at index 0 with the arguments. *)
Theorem unshift_prepends_in_order (s : State) (vals : list Value) :
  ∃ s', unshift vals s
        = (Ret (RNum (Z.of_nat (length (_array s) + length vals))), s') ∧
    _array s' = vals ++ _array s ∧
    (∀ x, x ∈ indices s' ↔
          x ∈ indices s ∨
          (Z.of_nat (length (_array s)) ≤ x
             < Z.of_nat (length (_array s) + length vals))%Z) ∧
    log s' = log s ++
      ((λ k, EDefine (Z.of_nat k)) <$> seq (length (_array s)) (length vals)) ++
      [EEmit (makeEvent Operations.add 0 PNull (PArr vals))].
Proof. apply unshift_full. Qed.

(** X4. [shift] after [unshift] returns the first argument and leaves the
    array with the other arguments in front, exposing the index cells of
    its elements. *)
Theorem unshift_then_shift (s : State) (v : Value) (vals : list Value) :
  indices s = index_range (length (_array s)) →
  ∃ s2, (unshift (v :: vals);; shift) s = (Ret (RVal v), s2) ∧
    _array s2 = vals ++ _array s ∧
    indices s2 = index_range (length (_array s2)).
Proof.
  intros Hinv. step.
  destruct (unshift_full (v :: vals) s) as (s1 & -> & Ha & Hi & _).
  destruct (shift_first s1 v) as (s2 & -> & Ha2 & Hi2 & _).
  { by rewrite Ha. }
  exists s2. split; [done|].
  assert (_array s2 = vals ++ _array s) as Ha2' by (by rewrite Ha2, Ha).
  split; [done|]. apply set_eq. intros x.
  rewrite Hi2, elem_of_difference, elem_of_singleton, Hi, Hinv, Ha2', Ha.
  rewrite !elem_of_index_range. simpl. rewrite !length_app. lia.
Qed.

Lemma unshift_then_shift_witness :
  ∃ s2, (unshift (VNum 3 :: [VNum 4]);; shift) idle = (Ret (RVal (VNum 3)), s2) ∧
    _array s2 = [VNum 4] ++ _array idle ∧
    indices s2 = index_range (length (_array s2)).
Proof.
  apply (unshift_then_shift idle (VNum 3) [VNum 4]). vm_compute. reflexivity.
Defined.

(** X5. Reversing an array that is not empty twice gives back the array;
    each call returns the reversed contents, hands one [reverse] event to
    the listeners and leaves the index cells alone. *)
Theorem reverse_twice (s : State) :
  length (_array s) ≠ 0 →
  ∃ s1 s2,
    reverse s = (Ret (RArray (rev (_array s))), s1) ∧
    reverse s1 = (Ret (RArray (_array s)), s2) ∧
    _array s2 = _array s ∧
    indices s2 = indices s ∧
    log s2 = log s ++
      [EEmit (makeEvent Operations.reverse (-1) PNull PNull);
       EEmit (makeEvent Operations.reverse (-1) PNull PNull)].
Proof.
  intros Hlen.
  destruct (reverse_full s Hlen) as (s1 & H1 & Ha1 & Hi1 & Hl1).
  destruct (reverse_full s1) as (s2 & H2 & Ha2 & Hi2 & Hl2).
  { by rewrite Ha1, length_rev. }
  rewrite Ha1, rev_involutive in H2, Ha2.
  exists s1, s2. split_and!; try done; [congruence|].
  by rewrite Hl2, Hl1, <- (assoc_L (++)).
Qed.

Lemma reverse_twice_witness :
  ∃ s1 s2,
    reverse idle = (Ret (RArray (rev (_array idle))), s1) ∧
    reverse s1 = (Ret (RArray (_array idle)), s2) ∧
    _array s2 = _array idle ∧
    indices s2 = indices idle ∧
    log s2 = log idle ++
      [EEmit (makeEvent Operations.reverse (-1) PNull PNull);
       EEmit (makeEvent Operations.reverse (-1) PNull PNull)].
Proof. apply (reverse_twice idle). simpl. lia. Defined.
End array_extras.

Section splice_extras.
Import PArray.

(** What [splice] returns and what it leaves in the backing array, for any
    arguments. *)
Lemma splice_result a s :
  ∃ s', splice a s
        = (Ret (RArray (fst (js_splice (_array s) (splice_index a)
                               (splice_howMany a) (splice_newItems a)))), s') ∧
    _array s' = snd (js_splice (_array s) (splice_index a)
                       (splice_howMany a) (splice_newItems a)).
Proof.
  unfold splice. step. unfold len at 1, gets at 1.
  step. unfold gets at 1.
  destruct (js_splice (_array s) (splice_index a) (splice_howMany a)
              (splice_newItems a)) as [spliced arr'] eqn:Hsp.
  step. unfold modify at 1. step. unfold len at 1, gets at 1. step.
  cbn [fst snd].
  match goal with |- context [bool_decide (?h < ?n)%Z] =>
    destruct (decide (h < n)%Z) as [Hgrow|Hgrow] end.
  - rewrite bool_decide_eq_true_2 by done.
    match goal with |- context [repeat_n ?d 0 _ ?st] =>
      destruct (define_loop d 0 (Z.of_nat (length (_array s))) st)
        as (s1 & fx & -> & Ha & _) end.
    step.
    match goal with |- context [updateSplice ?i (Some ?sp) (Some ?ni) ?st] =>
      destruct (updateSplice_frame i sp ni st) as (s' & -> & Ha' & _) end.
    unfold mret, M_ret. exists s'. split; [done|]. by rewrite Ha', Ha.
  - rewrite bool_decide_eq_false_2 by done.
    match goal with |- context [bool_decide (?n < ?h)%Z] =>
      destruct (decide (n < h)%Z) as [Hshrink|Hsame] end.
    + rewrite bool_decide_eq_true_2 by done.
      match goal with |- context [repeat_n ?d 0 _ ?st] =>
        destruct (delete_loop d 0 (Z.of_nat (length (_array s))) st)
          as (s1 & fx & -> & Ha & _) end.
      step.
      match goal with |- context [updateSplice ?i (Some ?sp) (Some ?ni) ?st] =>
        destruct (updateSplice_frame i sp ni st) as (s' & -> & Ha' & _) end.
      unfold mret, M_ret. exists s'. split; [done|]. by rewrite Ha', Ha.
    + rewrite bool_decide_eq_false_2 by done. step. unfold mret at 1, M_ret at 1.
      match goal with |- context [updateSplice ?i (Some ?sp) (Some ?ni) ?st] =>
        destruct (updateSplice_frame i sp ni st) as (s' & -> & Ha' & _) end.
      unfold mret, M_ret. exists s'. split; [done|]. by rewrite Ha'.
Qed.

Lemma js_splice_remove_one a i v :
  i ≤ length a →
  js_splice (take i a ++ v :: drop i a) (Z.of_nat i) (Some 1%Z) [] = ([v], a).
Proof.
  intros Hi. unfold js_splice.
  assert (length (take i a ++ v :: drop i a) = S (length a)) as Hlen.
  { rewrite length_app, length_take. simpl. rewrite length_drop. lia. }
  rewrite Hlen.
  assert ((Z.of_nat i <? 0)%Z = false) as -> by lia.
  rewrite (Z.min_l (Z.of_nat i)) by lia. rewrite Z.max_l by lia.
  rewrite Z.min_l by lia. rewrite Nat2Z.id.
  change (Z.to_nat 1) with 1.
  assert (drop i (take i a ++ v :: drop i a) = v :: drop i a) as Hd.
  { rewrite drop_app_ge; rewrite length_take; [|lia].
    replace (i - i `min` length a) with 0 by lia. done. }
  assert (take i (take i a ++ v :: drop i a) = take i a) as Ht.
  { rewrite take_app_le; rewrite ?length_take; [|lia].
    rewrite take_take. f_equal. lia. }
  assert (drop (i + 1) (take i a ++ v :: drop i a) = drop i a) as Hd'.
  { rewrite drop_app_ge; rewrite length_take; [|lia].
    replace (i + 1 - i `min` length a) with 1 by lia. done. }
  rewrite Hd, Ht, Hd'. simpl. by rewrite take_0, take_drop.
Qed.

(** X6. Inserting one element with [splice(i, 0, v)] and removing it with
    [splice(i, 1)] gives back the array and its index cells; the first call
    returns no element, the second the inserted one. *)
Theorem splice_insert_then_remove (s : State) (i : nat) (v : Value) :
  indices s = index_range (length (_array s)) →
  i ≤ length (_array s) →
  ∃ s1 s2,
    splice (Range (Z.of_nat i) 0 [v]) s = (Ret (RArray []), s1) ∧
    _array s1 = take i (_array s) ++ v :: drop i (_array s) ∧
    indices s1 = index_range (S (length (_array s))) ∧
    splice (Range (Z.of_nat i) 1 []) s1 = (Ret (RArray [v]), s2) ∧
    _array s2 = _array s ∧
    indices s2 = indices s.
Proof.
  intros Hinv Hi.
  destruct (splice_result (Range (Z.of_nat i) 0 [v]) s) as (s1 & H1 & Ha1).
  cbn [splice_index splice_howMany splice_newItems] in H1, Ha1.
  rewrite js_splice_insert in H1, Ha1 by done. cbn [fst snd] in H1, Ha1.
  destruct (splice_spec (Z.of_nat i) 0 [v] s Hinv)
    as (s1' & r & fx & post & H1' & Hi1 & _).
  { by rewrite js_splice_insert. }
  rewrite H1 in H1'. injection H1' as _ <-.
  destruct (splice_result (Range (Z.of_nat i) 1 []) s1) as (s2 & H2 & Ha2).
  cbn [splice_index splice_howMany splice_newItems] in H2, Ha2.
  rewrite Ha1, js_splice_remove_one in H2, Ha2 by done. cbn [fst snd] in H2, Ha2.
  destruct (splice_spec (Z.of_nat i) 1 [] s1 Hi1)
    as (s2' & r' & fx' & post' & H2' & Hi2 & _).
  { by rewrite Ha1, js_splice_remove_one. }
  rewrite H2 in H2'. injection H2' as _ <-.
  assert (length (_array s1) = S (length (_array s))) as Hlen.
  { rewrite Ha1, length_app, length_take. simpl. rewrite length_drop. lia. }
  exists s1, s2. split_and!; try done.
  - by rewrite Hi1, Hlen.
  - by rewrite Hi2, Ha2, Hinv.
Qed.

Lemma splice_insert_then_remove_witness :
  ∃ s1 s2,
    splice (Range (Z.of_nat 1) 0 [VNum 9]) idle = (Ret (RArray []), s1) ∧
    _array s1 = take 1 (_array idle) ++ VNum 9 :: drop 1 (_array idle) ∧
    indices s1 = index_range (S (length (_array idle))) ∧
    splice (Range (Z.of_nat 1) 1 []) s1 = (Ret (RArray [VNum 9]), s2) ∧
    _array s2 = _array idle ∧
    indices s2 = indices idle.
Proof.
  apply (splice_insert_then_remove idle 1 (VNum 9)).
  - vm_compute. reflexivity.
  - simpl. lia.
Defined.







End splice_extras.

Section refresh_extras.
Import PArray.

Lemma script_same a :
  Forall (λ v, strict_eq v v = true) a → U.script a a = map U.Keep a.
Proof.
  induction 1 as [|v a Hv Ha IH]; [done|].
  rewrite script_cons, Hv, IH. done.
Qed.

Lemma regions_kept i a : U.regions i None (map U.Keep a) = [].
Proof. revert i. induction a as [|v a IH]; intros i; simpl; [done|apply IH]. Qed.

Lemma diff_same a :
  Forall (λ v, strict_eq v v = true) a → U.diff a a = [].
Proof. intros Ha. unfold U.diff. rewrite script_same by done. apply regions_kept. Qed.


(** X10. [reFilter] is silent when the filter selects what the filtered
    array holds already, every element being [===] to itself: the store is
    left as it was. *)
Theorem reFilter_same_selection (s : State) (original : list Value)
    (filterArgs : Value → nat → bool) :
  js_filter filterArgs original = _array s →
  Forall (λ v, strict_eq v v = true) (_array s) →
  reFilter original filterArgs s = (Ret tt, s).
Proof.
  intros Hsame Hself. unfold reFilter. step. unfold gets at 1. step.
  unfold modify at 1. unfold updateByDiff. step. unfold gets at 1.
  cbn [_array with_array]. rewrite Hsame, diff_same by done.
  simpl. unfold mret, M_ret. by destruct s.
Qed.

Lemma reFilter_same_selection_witness :
  reFilter [VNum 1; VStr "a"; VNum 2]
    (λ v _, match v with VNum _ => true | _ => false end) idle
  = (Ret tt, idle).
Proof.
  apply (reFilter_same_selection idle [VNum 1; VStr "a"; VNum 2]
           (λ v _, match v with VNum _ => true | _ => false end)).
  - reflexivity.
  - simpl. repeat constructor.
Defined.

(** X11. When [toArray] returns, it returns one entry for every element of
    the backing array; and for an array that holds no reactive array the
    entries are the elements, in order. *)
Theorem toArray_copies (fuel : nat) (heap : gmap nat (list Value))
    (ar : list Value) :
  (∀ res, toArray fuel heap ar = Some res → length res = length ar) ∧
  ((∀ r, VObj r ∈ ar → heap !! r = None) →
   toArray (S fuel) heap ar = Some (PlainVal <$> ar)).
Proof.
  split.
  - destruct fuel as [|fuel]; [done|]. simpl. intros res Hres.
    symmetry. by eapply length_mapM.
  - intros Hflat. simpl. apply mapM_Some, Forall2_fmap_r, Forall_Forall2_diag.
    apply Forall_forall. intros el Hel.
    destruct el; try done. by rewrite Hflat.
Qed.

Lemma toArray_copies_witness :
  toArray 1 ∅ [VNum 1; VNum 2] = Some [PlainVal (VNum 1); PlainVal (VNum 2)].
Proof.
  apply (proj2 (toArray_copies 0 ∅ [VNum 1; VNum 2])).
  intros r Hr. apply lookup_empty.
Defined.

(** X12. [toArray] on a reactive array that holds itself does not return:
    whatever the depth allowed, the recursion runs out of it. *)
Theorem toArray_self_containing (heap : gmap nat (list Value)) (r : nat)
    (ar : list Value) :
  heap !! r = Some ar →
  VObj r ∈ ar →
  ∀ fuel, toArray fuel heap ar = None.
Proof.
  intros Hr Hin fuel. induction fuel as [|fuel IH]; [done|].
  simpl. apply eq_None_not_Some. intros Hsome.
  apply mapM_is_Some in Hsome.
  eapply Forall_forall in Hsome; [|exact Hin].
  simpl in Hsome. rewrite Hr, IH in Hsome. by destruct Hsome.
Qed.

Lemma toArray_self_containing_witness :
  toArray 7 {[ 4 := [VNum 1; VObj 4] ]} [VNum 1; VObj 4] = None.
Proof.
  apply (toArray_self_containing {[ 4 := [VNum 1; VObj 4] ]} 4 [VNum 1; VObj 4]).
  - reflexivity.
  - apply list_elem_of_In. simpl. right. left. reflexivity.
Defined.
End refresh_extras.

Section setter_extras.
Import Actor Property.

(** The requests of [update]: every listener, with the event of the cell. *)
Lemma defer_all_exact ev (ls : list Listener.t) w :
  Flow.running (flow w) = true →
  for_each (λ l : Listener.t,
    flow_enqueue flow with_flow true
      (fst (Listener.target l)) (snd (Listener.target l)) ev) ls w
  = (Ret tt,
     with_flow {| Flow.running := true;
                  Flow.pending :=
                    Flow.enqueue_all ((λ l, (Listener.target l, ev)) <$> ls)
                      (Flow.pending (flow w));
                  Flow.delivered := Flow.delivered (flow w) |} w).
Proof.
  revert w. induction ls as [|l ls IH]; intros w Hrun.
  - destruct w as [? ? [r q d] ?]. simpl in *. by subst r.
  - cbn [for_each]. step. unfold flow_enqueue at 1, Flow.isRunning.
    rewrite Hrun. rewrite IH by done.
    destruct w as [? ? [r q d] ?]. simpl in *. by subst r.
Qed.

Lemma update_publishes p c w :
  cells w !! p = Some c →
  state c = ready →
  update p w =
  (Ret tt,
   with_flow (published ((λ l, (Listener.target l, makeEvent c)) <$> listeners c)
                (flow w)) w).
Proof.
  intros Hc Hs. unfold update. step. rewrite (cell_lookup p c) by done.
  rewrite bool_decide_eq_true_2 by done.
  unfold flow_run, Flow.isRunning, published.
  destruct (Flow.running (flow w)) eqn:Hrun.
  - by rewrite defer_all_exact.
  - rewrite defer_all_exact by done. by destruct w as [? ? [r q d] ?].
Qed.

(** The setter, when the value is accepted and the cell is not rebuilt. *)
Lemma defaultSetter_stores (w : World) (p : nat) (c : t)
    (setter : option (Value → Value)) (x x' : Value) :
  cells w !! p = Some c →
  state c = ready →
  transform (transforms c) x = Ret x' →
  strict_eq x' BadValue = false →
  strict_eq (val c) x' = false →
  kind c = Types.auto ∨
    Types.type (match setter with Some g => g x' | None => x' end) = kind c →
  defaultSetter p setter x w =
  (Ret tt,
   {| hosts := hosts w;
      cells := <[p :=
        {| proObject := proObject c; property := property c;
           val := match setter with Some g => g x' | None => x' end;
           oldVal := val c; state := state c;
           isStaticTyped := isStaticTyped c; listeners := listeners c;
           transforms := transforms c; kind := kind c;
           accessors := accessors c |}]> (cells w);
      flow := published
        ((λ l, (Listener.target l,
                {| target := property c; object := proObject c;
                   old := val c;
                   new := match setter with Some g => g x' | None => x' end |}))
           <$> listeners c) (flow w);
      currentCaller := currentCaller w |}).
Proof.
  intros Hc Hs Hx Hbad Heq Hkind. unfold defaultSetter. step.
  rewrite (cell_lookup p c) by done. step. rewrite Hx, Hbad, Heq. cbn [orb].
  step. unfold set_cell at 1, modify at 1.
  assert (bool_decide (kind c ≠ Types.auto)
          && bool_decide (Types.type (match setter with
                                      | Some g => g x' | None => x' end)
                          ≠ kind c) = false) as ->.
  { apply andb_false_iff. destruct Hkind as [Hk|Hk]; [left|right];
      apply bool_decide_eq_false; by intros ?. }
  erewrite update_publishes; [|apply lookup_insert_eq|done].
  done.
Qed.
End setter_extras.

Section property_extras.
Import Actor Property.

(** X13. The setter, for a value that the transformations accept, that is
    not [===] to the current one, and that does not call for a rebuild (the
    property is automatic, or the stored value is of its category): the
    cell keeps its place and takes the value, the former value becomes the
    old one, and every listener is deferred once with the event of the
    change, inside a run or, outside of one, delivered at once. *)
Theorem defaultSetter_publishes (w : World) (p : nat) (c : t)
    (setter : option (Value → Value)) (x x' : Value) :
  cells w !! p = Some c →
  state c = ready →
  transform (transforms c) x = Ret x' →
  strict_eq x' BadValue = false →
  strict_eq (val c) x' = false →
  kind c = Types.auto ∨
    Types.type (match setter with Some g => g x' | None => x' end) = kind c →
  defaultSetter p setter x w =
  (Ret tt,
   {| hosts := hosts w;
      cells := <[p :=
        {| proObject := proObject c; property := property c;
           val := match setter with Some g => g x' | None => x' end;
           oldVal := val c; state := state c;
           isStaticTyped := isStaticTyped c; listeners := listeners c;
           transforms := transforms c; kind := kind c;
           accessors := accessors c |}]> (cells w);
      flow := published
        ((λ l, (Listener.target l,
                {| target := property c; object := proObject c;
                   old := val c;
                   new := match setter with Some g => g x' | None => x' end |}))
           <$> listeners c) (flow w);
      currentCaller := currentCaller w |}).
Proof. apply defaultSetter_stores. Qed.

Lemma defaultSetter_publishes_witness :
  defaultSetter 1 None (VNum 7) (scalar_world false) =
  (Ret tt,
   {| hosts := hosts (scalar_world false);
      cells := <[1 :=
        {| proObject := Some 0; property := Some "v";
           val := VNum 7; oldVal := VNum 5; state := ready;
           isStaticTyped := false; listeners := [fn1];
           transforms := []; kind := Types.simple;
           accessors := true |}]> (cells (scalar_world false));
      flow := published
        ((λ l, (Listener.target l,
                {| target := Some "v"; object := Some 0;
                   old := VNum 5; new := VNum 7 |})) <$> [fn1])
        (flow (scalar_world false));
      currentCaller := None |}).
Proof.
  apply (defaultSetter_publishes (scalar_world false) 1 (scalar_cell false)
           None (VNum 7) (VNum 7));
    first [reflexivity | (right; reflexivity)].
Defined.




Lemma published_has {A} (reqs : list ((option nat * nat) * A))
    (f : Flow.t A) k ev :
  NoDup (Flow.key <$> Flow.pending f) →
  k ∈ fst <$> reqs →
  Forall (λ r, snd r = ev) reqs →
  ∃ i, i ∈ Flow.scheduled (published reqs f) ∧ Flow.key i = k ∧ Flow.args i = ev.
Proof.
  intros Hnd Hk Hev.
  assert (∀ q, NoDup (Flow.key <$> q) →
            ∃ i, i ∈ Flow.enqueue_all reqs q ∧ Flow.key i = k ∧ Flow.args i = ev)
    as Hq.
  { intros q Hq. destruct (enqueue_all_once reqs q k Hq Hk) as (a & Hlast & Hp).
    assert (a = ev) as ->.
    { apply last_Some_elem_of, list_elem_of_fmap in Hlast as (r & -> & Hr).
      apply list_elem_of_filter in Hr as [_ Hr].
      by eapply Forall_forall in Hev. }
    exists {| Flow.obj := k.1; Flow.method := k.2; Flow.args := ev |}.
    split; [|split; [|reflexivity]].
    - assert ({| Flow.obj := k.1; Flow.method := k.2; Flow.args := ev |}
              ∈ Flow.pending_for k (Flow.enqueue_all reqs q)) as Hin
        by (rewrite Hp; left).
      unfold Flow.pending_for in Hin. by apply list_elem_of_filter in Hin as [_ ?].
    - by destruct k. }
  unfold published, Flow.scheduled. destruct (Flow.running f); simpl.
  - destruct (Hq (Flow.pending f) Hnd) as (i & Hi & ? & ?).
    exists i. split; [|done]. apply elem_of_app. by right.
  - destruct (Hq [] (NoDup_nil_2)) as (i & Hi & ? & ?).
    exists i. split; [|done]. rewrite app_nil_r. apply elem_of_app. by right.
Qed.

(** X15. Reading a property under a current caller that does not belong to
    it and then setting the property to a new value of its category
    notifies the caller: an invocation of the caller is scheduled, with the
    event of the change. *)
Theorem read_then_write_notifies_reader (w : World) (p : nat) (c : t)
    (caller : Listener.t) (x x' : Value) :
  cells w !! p = Some c →
  state c = ready →
  currentCaller w = Some caller →
  Listener.property caller ≠ Some p →
  transform (transforms c) x = Ret x' →
  strict_eq x' BadValue = false →
  strict_eq (val c) x' = false →
  kind c = Types.auto ∨ Types.type x' = kind c →
  NoDup (Flow.key <$> Flow.pending (flow w)) →
  ∃ w1 w2 i,
    defaultGetter p w = (Ret (val c), w1) ∧
    defaultSetter p None x w1 = (Ret tt, w2) ∧
    i ∈ Flow.scheduled (flow w2) ∧
    Flow.key i = Listener.target caller ∧
    Flow.args i = {| target := property c; object := proObject c;
                     old := val c; new := x' |}.
Proof.
  intros Hc Hs Hcaller Hown Hx Hbad Hne Hkind Hnd.
  assert (∃ w1 c1, defaultGetter p w = (Ret (val c), w1) ∧
            cells w1 !! p = Some c1 ∧ caller ∈ listeners c1 ∧
            flow w1 = flow w ∧
            proObject c1 = proObject c ∧ property c1 = property c ∧
            val c1 = val c ∧ state c1 = state c ∧
            transforms c1 = transforms c ∧ kind c1 = kind c)
    as (w1 & c1 & Hget & Hc1 & Hin & Hflow & Hpo & Hpn & Hval & Hst & Hts & Hk).
  { unfold defaultGetter. step. unfold addCaller. step. unfold gets at 1.
    rewrite Hcaller. rewrite bool_decide_eq_true_2 by done.
    rewrite (on_spec p caller c) by done.
    rewrite bool_decide_eq_false_2 by done.
    rewrite (bool_decide_eq_false_2 (state c = destroyed)) by (by rewrite Hs).
    cbn [orb]. case_bool_decide as Hmem.
    - step. rewrite (cell_lookup p c) by done. unfold mret, M_ret.
      exists w, c. split_and!; done.
    - step. unfold cell. cbn [cells with_cells]. rewrite lookup_insert_eq.
      unfold mret, M_ret. eexists _, _. split; [done|].
      cbn [cells with_cells]. split; [apply lookup_insert_eq|].
      cbn [listeners]. split_and!; try done.
      apply elem_of_app. right. left. }
  assert (Hset := defaultSetter_stores w1 p c1 None x x' Hc1).
  rewrite Hts, Hval, Hk, Hst in Hset.
  specialize (Hset Hs Hx Hbad Hne Hkind).
  destruct (published_has
    ((λ l, (Listener.target l,
            {| target := property c1; object := proObject c1;
               old := val c1; new := x' |})) <$> listeners c1)
    (flow w1) (Listener.target caller)
    {| target := property c1; object := proObject c1;
       old := val c1; new := x' |}) as (i & Hi & Hkey & Hargs).
  { by rewrite Hflow. }
  { rewrite <- list_fmap_compose. apply list_elem_of_fmap. by exists caller. }
  { apply Forall_fmap, Forall_true. done. }
  exists w1. eexists _, i. split; [done|]. split; [exact Hset|].
  cbn [flow]. rewrite Hval in Hi, Hargs. split_and!; [done|done|].
  by rewrite Hargs, Hpo, Hpn.
Qed.

Lemma read_then_write_notifies_reader_witness :
  ∃ w1 w2 i,
    defaultGetter 1 {| hosts := hosts (scalar_world false);
                       cells := cells (scalar_world false);
                       flow := flow (scalar_world false);
                       currentCaller := Some obj2 |}
    = (Ret (VNum 5), w1) ∧
    defaultSetter 1 None (VNum 7) w1 = (Ret tt, w2) ∧
    i ∈ Flow.scheduled (flow w2) ∧
    Flow.key i = Listener.target obj2 ∧
    Flow.args i = {| target := Some "v"; object := Some 0;
                     old := VNum 5; new := VNum 7 |}.
Proof.
  apply (read_then_write_notifies_reader
           {| hosts := hosts (scalar_world false);
              cells := cells (scalar_world false);
              flow := flow (scalar_world false);
              currentCaller := Some obj2 |}
           1 (scalar_cell false) obj2 (VNum 7) (VNum 7)).
  - reflexivity.
  - reflexivity.
  - reflexivity.
  - discriminate.
  - reflexivity.
  - reflexivity.
  - reflexivity.
  - right. reflexivity.
  - simpl. apply NoDup_nil_2.
Defined.
End property_extras.

Section lifecycle_extras.
Import Actor Property.

(** X16. [reProb] on a ready property that is not statically typed
    destroys it and returns a new property for the same field: the new
    cell is a fresh one, holds the value the old one held, is of the
    category of that value and takes over the listeners; the field of the
    host is bound to it, and nothing is published. *)
Theorem reProb_keeps_value_and_listeners (w : World) (p h : nat) (c : t)
    (host : Host) (f : string) :
  cells w !! p = Some c →
  state c = ready →
  isStaticTyped c = false →
  proObject c = Some h →
  property c = Some f →
  hosts w !! h = Some host →
  ∃ q w' host' cq,
    reProb p w = (Ret (Some q), w') ∧
    (q ∉ dom (cells w)) ∧
    cells w' !! p = Some (destroyed_cell c) ∧
    cells w' !! q = Some cq ∧
    val cq = val c ∧ listeners cq = listeners c ∧
    kind cq = Types.type (val c) ∧ state cq = ready ∧
    hosts w' !! h = Some host' ∧
    properties host' !! f = Some q ∧
    fields host' !! f = Some (Accessor q) ∧
    flow w' = flow w.
Proof.
  intros Hc Hs Hst Hh Hf Hhost. unfold reProb. step.
  rewrite (cell_lookup p c) by done. rewrite Hst, Hs.
  rewrite bool_decide_eq_false_2 by (intros ?; done). cbn [orb].
  step. rewrite (destroy_live w p h c host f) by (done || by rewrite Hs).
  rewrite Hh, Hf. cbn [field_key default id]. step.
  match goal with |- context [makeProp h f ?l ?st] =>
    rewrite (makeProp_data st h (restored_host host f (val c)) f (val c)
               true true true l) end.
  2, 3: apply lookup_insert_eq.
  unfold mret, M_ret. cbn [cells hosts].
  match goal with |- context [fresh ?d] => set (q := fresh d);
    assert (q ∉ d) as Hq by apply is_fresh end.
  rewrite dom_insert_L in Hq.
  assert (q ≠ p) as Hqp by set_solver.
  eexists q, _, _, _. split; [done|]. cbn [cells hosts flow]. split_and!.
  - set_solver.
  - rewrite lookup_insert_ne by done. apply lookup_insert_eq.
  - apply lookup_insert_eq.
  - done.
  - done.
  - done.
  - done.
  - rewrite insert_insert_eq. apply lookup_insert_eq.
  - cbn [bound_host properties]. apply lookup_insert_eq.
  - cbn [bound_host fields]. apply lookup_insert_eq.
  - done.
Qed.

Lemma reProb_keeps_value_and_listeners_witness :
  ∃ q w' host' cq,
    reProb 1 (scalar_world false) = (Ret (Some q), w') ∧
    (q ∉ dom (cells (scalar_world false))) ∧
    cells w' !! 1 = Some (destroyed_cell (scalar_cell false)) ∧
    cells w' !! q = Some cq ∧
    val cq = val (scalar_cell false) ∧
    listeners cq = listeners (scalar_cell false) ∧
    kind cq = Types.type (val (scalar_cell false)) ∧ state cq = ready ∧
    hosts w' !! 0 = Some host' ∧
    properties host' !! "v" = Some q ∧
    fields host' !! "v" = Some (Accessor q) ∧
    flow w' = flow (scalar_world false).
Proof.
  apply (reProb_keeps_value_and_listeners (scalar_world false) 1 0
           (scalar_cell false)
           {| fields := {[ "v" := Accessor 1 ]};
              properties := {[ "v" := 1 ]}; statics := None |} "v");
    reflexivity.
Defined.

Lemma construct_data (w : World) (p h : nat) (host : Host) (f : string)
    (k : Types.t) (v : Value) (e cf wr : bool) :
  hosts w !! h = Some host →
  fields host !! f = Some (Data v e cf wr) →
  construct p h f k w =
  (Ret tt,
   {| hosts := <[h := bound_host host f p]> (hosts w);
      cells := <[p :=
        {| proObject := Some h; property := Some f; val := v; oldVal := VNull;
           state := ready;
           isStaticTyped := match statics host with
                            | Some names => bool_decide (f ∈ names)
                            | None => false
                            end;
           listeners := []; transforms := []; kind := k;
           accessors := true |}]> (cells w);
      flow := flow w; currentCaller := currentCaller w |}).
Proof.
  intros Hhost Hf. unfold construct. step. rewrite Hhost.
  step. unfold set_host at 1, modify at 1.
  step. unfold read_field at 1. rewrite Hf. unfold mret at 1, M_ret at 1.
  step. unfold set_host at 1, modify at 1.
  unfold set_cell, modify.
  cbn [cells hosts with_cells with_hosts flow currentCaller].
  by rewrite insert_insert_eq.
Qed.

(** X17. Making a property of a plain field and destroying it: while it
    lives the field is its accessor, the property table names it, and it
    holds the value the field held; afterwards the field is a plain,
    enumerable, configurable and writable field with that value, the
    property table has no entry for it, and the other fields, the other
    entries of the table and the other hosts are as they were. *)
Theorem construct_then_destroy (w : World) (p h : nat) (host : Host)
    (f : string) (k : Types.t) (v : Value) (e cf wr : bool) :
  hosts w !! h = Some host →
  fields host !! f = Some (Data v e cf wr) →
  ∃ w1 w2 host1 host2 c1,
    construct p h f k w = (Ret tt, w1) ∧
    hosts w1 !! h = Some host1 ∧
    fields host1 !! f = Some (Accessor p) ∧
    properties host1 !! f = Some p ∧
    cells w1 !! p = Some c1 ∧ val c1 = v ∧ state c1 = ready ∧
    destroy p w1 = (Ret tt, w2) ∧
    hosts w2 !! h = Some host2 ∧
    fields host2 !! f = Some (Data v true true true) ∧
    properties host2 !! f = None ∧
    (∀ f', f' ≠ f → fields host2 !! f' = fields host !! f' ∧
                    properties host2 !! f' = properties host !! f') ∧
    (∀ h', h' ≠ h → hosts w2 !! h' = hosts w !! h').
Proof.
  intros Hhost Hf.
  rewrite (construct_data w p h host f k v e cf wr) by done.
  eexists _, _, _, _, _. split; [done|]. cbn [hosts cells].
  split; [apply lookup_insert_eq|].
  split; [apply lookup_insert_eq|].
  split; [apply lookup_insert_eq|].
  split; [apply lookup_insert_eq|].
  split; [done|]. split; [done|].
  split.
  { eapply (destroy_live _ p h _ (bound_host host f p) f);
      [apply lookup_insert_eq|done|done|done|apply lookup_insert_eq]. }
  cbn [hosts]. rewrite insert_insert_eq.
  split; [apply lookup_insert_eq|].
  cbn [restored_host bound_host fields properties val].
  split; [apply lookup_insert_eq|].
  split; [apply lookup_delete_eq|].
  split.
  - intros f' Hne. split.
    + by rewrite !lookup_insert_ne.
    + by rewrite lookup_delete_ne, lookup_insert_ne.
  - intros h' Hne. by rewrite lookup_insert_ne.
Qed.

Lemma construct_then_destroy_witness :
  ∃ w1 w2 host1 host2 c1,
    construct 4 0 "v" Types.simple plain_world = (Ret tt, w1) ∧
    hosts w1 !! 0 = Some host1 ∧
    fields host1 !! "v" = Some (Accessor 4) ∧
    properties host1 !! "v" = Some 4 ∧
    cells w1 !! 4 = Some c1 ∧ val c1 = VNum 5 ∧ state c1 = ready ∧
    destroy 4 w1 = (Ret tt, w2) ∧
    hosts w2 !! 0 = Some host2 ∧
    fields host2 !! "v" = Some (Data (VNum 5) true true true) ∧
    properties host2 !! "v" = None ∧
    (∀ f', f' ≠ "v" → fields host2 !! f' = fields plain_host !! f' ∧
                      properties host2 !! f' = properties plain_host !! f') ∧
    (∀ h', h' ≠ 0 → hosts w2 !! h' = hosts plain_world !! h').
Proof.
  apply (construct_then_destroy plain_world 4 0 plain_host "v" Types.simple
           (VNum 5) true true true); reflexivity.
Defined.

(** X18. [doDestroy] called twice: the first call releases the property,
    the second ends in a [TypeError], the host of the property being
    [undefined] by then, and changes nothing. *)
Theorem doDestroy_twice_throws (w : World) (p h : nat) (c : t) (host : Host) :
  cells w !! p = Some c →
  proObject c = Some h →
  hosts w !! h = Some host →
  ∃ w1, doDestroy p w = (Ret tt, w1) ∧
        doDestroy p w1 = (Throw TypeError, w1).
Proof.
  intros Hc Hh Hhost. unfold doDestroy at 1. step.
  rewrite (cell_lookup p c) by done.
  step. unfold host_of at 1. rewrite Hh, Hhost.
  step. unfold set_host at 1, modify at 1. unfold set_cell, modify.
  eexists. split; [done|].
  unfold doDestroy. step. unfold cell at 1.
  cbn [cells with_cells with_hosts]. rewrite lookup_insert_eq.
  step. unfold host_of. cbn [proObject]. done.
Qed.

Lemma doDestroy_twice_throws_witness :
  ∃ w1, doDestroy 1 (scalar_world false) = (Ret tt, w1) ∧
        doDestroy 1 w1 = (Throw TypeError, w1).
Proof.
  apply (doDestroy_twice_throws (scalar_world false) 1 0 (scalar_cell false)
           {| fields := {[ "v" := Accessor 1 ]};
              properties := {[ "v" := 1 ]}; statics := None |});
    reflexivity.
Defined.
End lifecycle_extras.

Section listener_extras.
Import Actor Property.

Lemma defaultGetter_no_caller p c w :
  cells w !! p = Some c →
  currentCaller w = None →
  defaultGetter p w = (Ret (val c), w).
Proof.
  intros Hc Hcaller. unfold defaultGetter. step.
  unfold addCaller. step. unfold gets at 1. rewrite Hcaller.
  unfold mret at 1, M_ret at 1. step. by rewrite (cell_lookup p c).
Qed.

(** X19. The listener that a property makes of itself, called with a value
    event that names a field of an object: the property is set to what
    that field holds when the listener is called, whatever the event
    carries as its new value. The field is the accessor of a property
    here, and nothing is computing at the time of the call. *)
Theorem listener_call_reads_source (event_object : Event → Value)
    (w : World) (p src h : nat) (c csrc : t) (host : Host) (f : string)
    (ev : Event) :
  cells w !! p = Some c →
  accessors c = true →
  target ev = Some f →
  f ≠ "" →
  object ev = Some h →
  hosts w !! h = Some host →
  fields host !! f = Some (Accessor src) →
  cells w !! src = Some csrc →
  currentCaller w = None →
  listener_call event_object p (inr ev) w = defaultSetter p None (val csrc) w.
Proof.
  intros Hc Hacc Ht Hf Ho Hhost Hfield Hsrc Hcaller.
  unfold listener_call. rewrite Ht, Ho.
  rewrite bool_decide_eq_false_2 by done.
  step. step. rewrite Hhost. unfold read_field. rewrite Hfield.
  rewrite (defaultGetter_no_caller src csrc) by done.
  step. rewrite (cell_lookup p c) by done. by rewrite Hacc.
Qed.

Lemma listener_call_reads_source_witness :
  listener_call (λ _, VUndefined) 1
    (inr {| target := Some "v"; object := Some 0; old := VNum 4;
            new := VNum 6 |}) (scalar_world false)
  = defaultSetter 1 None (val (scalar_cell false)) (scalar_world false).
Proof.
  apply (listener_call_reads_source _ (scalar_world false) 1 1 0
           (scalar_cell false) (scalar_cell false)
           {| fields := {[ "v" := Accessor 1 ]};
              properties := {[ "v" := 1 ]}; statics := None |} "v");
    done.
Defined.

Lemma lazyValue_spec (x : Value) (meta : Meta) (w : World) :
  lazyValue x meta w =
  (Ret (fresh (dom (cells w))),
   {| hosts :=
        <[fresh (dom (hosts w)) :=
            bound_host
              {| fields := {[ "v" := Data x true true true ]};
                 properties := ∅; statics := Some (meta_statics meta) |}
              "v" (fresh (dom (cells w)))]> (hosts w);
      cells :=
        <[fresh (dom (cells w)) :=
            built_cell (fresh (dom (hosts w)))
              {| fields := {[ "v" := Data x true true true ]};
                 properties := ∅; statics := Some (meta_statics meta) |}
              "v" x []]> (cells w);
      flow := flow w; currentCaller := currentCaller w |}).
Proof.
  unfold lazyValue. step. unfold gets at 1. step. unfold modify at 1.
  match goal with |- makeProp ?h ?f ?l ?st = _ =>
    rewrite (makeProp_data st h
               {| fields := {[ "v" := Data x true true true ]};
                  properties := ∅; statics := Some (meta_statics meta) |}
               f x true true true l) end.
  - cbn [cells hosts with_hosts flow currentCaller].
    by rewrite insert_insert_eq.
  - cbn [hosts with_hosts]. apply lookup_insert_eq.
  - apply lookup_singleton_eq.
Qed.

(** X20. [lazyValue] makes a new object with the one field [v] and returns
    the property of that field: a new cell that is ready, holds the value,
    has no listeners, and is statically typed exactly when [v] is among
    the static names, which it is unless [meta.p.statics] is given and
    leaves it out. The objects and the properties that were there are
    untouched, and nothing is published. *)
Theorem lazyValue_fresh_property (x : Value) (meta : Meta) (w : World) :
  ∃ p h w' c host,
    lazyValue x meta w = (Ret p, w') ∧
    (p ∉ dom (cells w)) ∧ (h ∉ dom (hosts w)) ∧
    cells w' !! p = Some c ∧
    val c = x ∧ state c = ready ∧ listeners c = [] ∧
    kind c = Types.type x ∧
    proObject c = Some h ∧ property c = Some "v" ∧
    isStaticTyped c = bool_decide ("v" ∈ meta_statics meta) ∧
    (match meta with
     | MetaObject (Some (Some _)) => True
     | _ => isStaticTyped c = true
     end) ∧
    hosts w' !! h = Some host ∧
    fields host = {[ "v" := Accessor p ]} ∧
    properties host = {[ "v" := p ]} ∧
    (∀ p', p' ≠ p → cells w' !! p' = cells w !! p') ∧
    (∀ h', h' ≠ h → hosts w' !! h' = hosts w !! h') ∧
    flow w' = flow w ∧ currentCaller w' = currentCaller w.
Proof.
  rewrite lazyValue_spec. eexists _, _, _, _, _. split; [done|].
  cbn [cells hosts flow currentCaller]. split_and!.
  - apply is_fresh.
  - apply is_fresh.
  - apply lookup_insert_eq.
  - done.
  - done.
  - done.
  - done.
  - done.
  - done.
  - done.
  - destruct meta as [| |[[names|]|]]; done.
  - apply lookup_insert_eq.
  - cbn [bound_host fields]. apply insert_singleton_eq.
  - cbn [bound_host properties]. apply insert_empty.
  - intros p' Hp. by rewrite lookup_insert_ne.
  - intros h' Hh. by rewrite lookup_insert_ne.
  - done.
  - done.
Qed.

(** X21. [value] inside a computing listener: the property that is made is
    read at once, which subscribes the listener to it, the new property
    not being the listener's own. *)
Theorem value_subscribes_caller (x : Value) (meta : Meta) (w : World)
    (caller : Listener.t) :
  currentCaller w = Some caller →
  Listener.property caller ≠ Some (fresh (dom (cells w))) →
  ∃ p w' c,
    value x meta w = (Ret p, w') ∧
    (p ∉ dom (cells w)) ∧
    cells w' !! p = Some c ∧
    val c = x ∧ state c = ready ∧ listeners c = [caller] ∧
    (∀ p', p' ≠ p → cells w' !! p' = cells w !! p') ∧
    flow w' = flow w.
Proof.
  intros Hcaller Hown. unfold value. step. rewrite lazyValue_spec.
  step. unfold defaultGetter at 1. step. unfold addCaller at 1.
  step. unfold gets at 1. cbn [currentCaller]. rewrite Hcaller.
  rewrite bool_decide_eq_true_2 by done.
  match goal with |- context [on ?p ?l ?st] =>
    rewrite (on_spec p l
      (built_cell (fresh (dom (hosts w)))
         {| fields := {[ "v" := Data x true true true ]};
            properties := ∅; statics := Some (meta_statics meta) |}
         "v" x []) st) by apply lookup_insert_eq end.
  rewrite bool_decide_eq_false_2 by done.
  rewrite bool_decide_eq_false_2 by done.
  rewrite bool_decide_eq_false_2 by (cbn [listeners built_cell]; set_solver).
  cbn [orb]. step. unfold cell at 1. cbn [cells with_cells].
  rewrite lookup_insert_eq. unfold mret, M_ret.
  eexists _, _, _. split; [done|]. cbn [cells flow]. split_and!.
  - apply is_fresh.
  - apply lookup_insert_eq.
  - done.
  - done.
  - done.
  - intros p' Hp. cbn [cells with_cells]. by rewrite !lookup_insert_ne.
  - done.
Qed.

Lemma value_subscribes_caller_witness :
  ∃ p w' c,
    value (VNum 8) MetaAbsent reading_world = (Ret p, w') ∧
    (p ∉ dom (cells reading_world)) ∧
    cells w' !! p = Some c ∧
    val c = VNum 8 ∧ state c = ready ∧ listeners c = [own_listener] ∧
    (∀ p', p' ≠ p → cells w' !! p' = cells reading_world !! p') ∧
    flow w' = flow reading_world.
Proof.
  apply (value_subscribes_caller (VNum 8) MetaAbsent reading_world own_listener).
  - reflexivity.
  - vm_compute. discriminate.
Defined.
End listener_extras.

Section stream_extras.
Import Actor Stream.

(** X22. An event whose transformation succeeds: if the result is the
    [BadValue] sentinel the stream is left as it was; otherwise nothing is
    scheduled but invocations of the listeners of values, with the
    transformed event, so the listeners of errors are handed nothing. An
    omitted second argument of [trigger] means the same as [true]. *)
Theorem values_reach_value_listeners_only (s : State) (event x : Value) :
  transform (transforms s) event = Ret x →
  trigger event None s = go event true s ∧
  (strict_eq x BadValue = true → go event true s = (Ret tt, s)) ∧
  (strict_eq x BadValue = false →
     ∃ s', go event true s = (Ret tt, s') ∧
           delivers_only (flow s) (flow s') x (listeners s) ∧
           listeners s' = listeners s ∧ errListeners s' = errListeners s).
Proof.
  intros Hx. split; [done|].
  assert (go event true s =
          if strict_eq x BadValue then (Ret tt, s) else update x None s) as ->.
  { unfold go. step. unfold gets at 1. rewrite Hx. by destruct (strict_eq _ _). }
  split; intros ->; [done|]. by apply update_sent.
Qed.

Lemma values_reach_value_listeners_only_witness :
  trigger (VNum 3) None stream = go (VNum 3) true stream ∧
  (strict_eq (VNum 3) BadValue = true →
     go (VNum 3) true stream = (Ret tt, stream)) ∧
  (strict_eq (VNum 3) BadValue = false →
     ∃ s', go (VNum 3) true stream = (Ret tt, s') ∧
           delivers_only (flow stream) (flow s') (VNum 3) (listeners stream) ∧
           listeners s' = listeners stream ∧
           errListeners s' = errListeners stream).
Proof.
  apply (values_reach_value_listeners_only stream (VNum 3) (VNum 3)).
  reflexivity.
Defined.


Lemma defer_plain_loop (v : Value) (ls : list Listener.t) (s : State) :
  Flow.running (flow s) = true →
  Forall (λ l, Listener.property l = None) ls →
  for_each (defer v) ls s =
  (Ret tt,
   with_flow {| Flow.running := true;
                Flow.pending := Flow.pending (flow s) ++ (handed v <$> ls);
                Flow.delivered := Flow.delivered (flow s) |} s).
Proof.
  revert s. induction ls as [|l ls IH]; intros s Hrun Hplain.
  - cbn [for_each fmap list_fmap]. rewrite app_nil_r.
    destruct s as [? ? ? [r p d]]. simpl in *. by subst r.
  - apply Forall_cons in Hplain as [Hl Hplain].
    cbn [for_each]. step.
    assert (defer v l s =
      (Ret tt,
       with_flow {| Flow.running := true;
                    Flow.pending := Flow.pending (flow s) ++ [handed v l];
                    Flow.delivered := Flow.delivered (flow s) |} s)) as ->.
    { unfold defer. rewrite Hl. unfold handed, Listener.target.
      destruct (Listener.callable l);
        unfold flow_enqueue, Flow.isRunning; rewrite Hrun;
        unfold Flow.enqueue, Flow.push; by rewrite Hrun. }
    rewrite IH by done. cbn [flow with_flow Flow.pending Flow.delivered].
    rewrite fmap_cons, <- app_assoc. by destruct s.
Qed.

(** X24. A stream whose listeners of values are plain ones (none of them is
    the listener of a property): an accepted event appends one invocation
    per listener to the invocations of the run, in the order of the
    listeners and after everything that was there; no pending invocation
    is replaced or dropped, also not one of the same listener. Outside of
    a run the invocations are executed in that order before the call
    returns. *)
Theorem trigger_queues_in_order (s : State) (event x : Value) :
  Forall (λ l, Listener.property l = None) (listeners s) →
  transform (transforms s) event = Ret x →
  strict_eq x BadValue = false →
  trigger event None s =
  (Ret tt,
   with_flow
     (if Flow.running (flow s)
      then {| Flow.running := true;
              Flow.pending := Flow.pending (flow s) ++ (handed x <$> listeners s);
              Flow.delivered := Flow.delivered (flow s) |}
      else {| Flow.running := false; Flow.pending := [];
              Flow.delivered :=
                Flow.delivered (flow s) ++ (handed x <$> listeners s) |}) s).
Proof.
  intros Hplain Hx Hbad. unfold trigger, go, default at 1, id.
  step. unfold gets at 1. rewrite Hx. cbv beta iota. rewrite Hbad.
  unfold update, flow_run, Flow.isRunning, makeEvent.
  destruct (Flow.running (flow s)) eqn:Hrun.
  - step. unfold gets at 1. cbn [default]. by rewrite defer_plain_loop.
  - step. unfold gets at 1. cbn [default listeners with_flow].
    rewrite defer_plain_loop by done. by destruct s.
Qed.

Lemma trigger_queues_in_order_witness :
  trigger (VNum 3) None plain_stream =
  (Ret tt,
   with_flow
     (if Flow.running (flow plain_stream)
      then {| Flow.running := true;
              Flow.pending := Flow.pending (flow plain_stream)
                              ++ (handed (VNum 3) <$> listeners plain_stream);
              Flow.delivered := Flow.delivered (flow plain_stream) |}
      else {| Flow.running := false; Flow.pending := [];
              Flow.delivered :=
                Flow.delivered (flow plain_stream)
                ++ (handed (VNum 3) <$> listeners plain_stream) |})
     plain_stream).
Proof.
  apply (trigger_queues_in_order plain_stream (VNum 3) (VNum 3)).
  - repeat constructor.
  - reflexivity.
  - reflexivity.
Defined.
End stream_extras.

Section negative_index.
Import PArray.

Lemma js_splice_from_end (a b : list Value) (v : Value) :
  js_splice (a ++ v :: b) (- (Z.of_nat (length b) + 1)) (Some 1%Z) []
  = ([v], a ++ b).
Proof.
  unfold js_splice.
  assert (length (a ++ v :: b) = length a + S (length b)) as Hlen.
  { by rewrite length_app. }
  rewrite Hlen.
  assert ((- (Z.of_nat (length b) + 1) <? 0)%Z = true) as -> by lia.
  replace (Z.of_nat (length a + S (length b)) + - (Z.of_nat (length b) + 1))%Z
    with (Z.of_nat (length a)) by lia.
  rewrite (Z.max_l 1 0) by lia.
  rewrite (Z.max_l (Z.of_nat (length a)) 0) by lia.
  rewrite Z.min_l by lia. rewrite Nat2Z.id.
  change (Z.to_nat 1) with 1.
  rewrite drop_app_length, take_app_length.
  rewrite <- drop_drop, drop_app_length. simpl.
  by rewrite take_0, drop_0.
Qed.

Lemma bitnot_negative (k : Z) :
  (1 ≤ k < 2 ^ 31)%Z → bitnot (- k) = (k - 1)%Z.
Proof.
  intros Hk. unfold bitnot, toInt32.
  replace (- k mod 2 ^ 32)%Z with (2 ^ 32 - k)%Z.
  - assert ((2 ^ 32 - k <? 2 ^ 31)%Z = false) as -> by lia.
    unfold Z.lnot. lia.
  - symmetry. rewrite <- (Z.mod_add _ 1) by lia.
    rewrite Z.mod_small by lia. lia.
Qed.

(** X25. [splice] with a negative index and [howMany] 1, the index
    counting from the end of the array: the element at that place is
    removed and returned and the last index cell is released, but the
    index of the event is not the place of the element: it is the
    negative index as it was passed, and for [-1] it is the length of the
    array before the call, one past the place of its last element. *)
Theorem splice_negative_index_event (s : State) (a b : list Value) (v : Value) :
  _array s = a ++ v :: b →
  (Z.of_nat (length b) + 1 < 2 ^ 31)%Z →
  ∃ s',
    splice (Range (- (Z.of_nat (length b) + 1)) 1 []) s
      = (Ret (RArray [v]), s') ∧
    _array s' = a ++ b ∧
    indices s' = indices s ∖ {[ Z.of_nat (length a + length b) ]} ∧
    log s' = log s ++
      [EDelete (Z.of_nat (length a + length b));
       EEmit (splice_event
                (if bool_decide (b = [])
                 then Z.of_nat (length a) + 1
                 else - (Z.of_nat (length b) + 1))%Z [v] [])] ∧
    (if bool_decide (b = [])
     then Z.of_nat (length a) + 1
     else - (Z.of_nat (length b) + 1))%Z ≠ Z.of_nat (length a).
Proof.
  intros Harr Hb. unfold splice. step. unfold len at 1, gets at 1.
  step. unfold gets at 1.
  cbn [splice_index splice_howMany splice_newItems].
  rewrite Harr, js_splice_from_end.
  step. unfold modify at 1. step. unfold len at 1, gets at 1. step.
  cbn [_array with_array length].
  rewrite (bool_decide_eq_false_2 (1 < Z.of_nat 0)%Z) by (simpl; lia).
  rewrite (bool_decide_eq_true_2 (Z.of_nat 0 < 1)%Z) by (simpl; lia).
  change (Z.to_nat (1 - Z.of_nat 0)) with 1. cbn [repeat_n].
  assert ((if bool_decide (bitnot (- (Z.of_nat (length b) + 1)) = 0%Z)
           then Z.of_nat (length (a ++ b)) - - (Z.of_nat (length b) + 1)
           else - (Z.of_nat (length b) + 1))%Z
          = (if bool_decide (b = [])
             then Z.of_nat (length a) + 1
             else - (Z.of_nat (length b) + 1))%Z) as ->.
  { rewrite bitnot_negative by lia. destruct b as [|x b].
    - rewrite !bool_decide_eq_true_2 by done. rewrite app_nil_r. simpl. lia.
    - rewrite !bool_decide_eq_false_2; [done|done|simpl; lia]. }
  assert (Z.of_nat (length (a ++ v :: b)) - 1 - Z.of_nat 0
          = Z.of_nat (length a + length b))%Z as ->.
  { rewrite length_app. simpl. lia. }
  unfold delete_index, emit, modify, mret, M_ret. unfold mbind, M_bind.
  cbv beta iota.
  match goal with |- context [updateSplice ?i (Some ?sp) (Some ?ni) ?st] =>
    destruct (updateSplice_frame i sp ni st) as (s' & -> & Ha' & Hx' & _ & Hl') end.
  cbn [_array indices log with_array with_indices with_log length] in Ha', Hx', Hl'.
  rewrite (bool_decide_eq_false_2 (1 = 0)) in Hl' by done. cbn [andb] in Hl'.
  exists s'. split_and!; [done|done|done| |].
  - rewrite Hl', <- app_assoc. done.
  - case_bool_decide; lia.
Qed.

Lemma splice_negative_index_event_witness :
  ∃ s',
    splice (Range (-1) 1 []) idle = (Ret (RArray [VNum 2]), s') ∧
    _array s' = [VNum 1] ∧
    indices s' = indices idle ∖ {[ 1%Z ]} ∧
    log s' = log idle ++
      [EDelete 1; EEmit (splice_event 2 [VNum 2] [])] ∧
    (2 ≠ 1)%Z.
Proof.
  apply (splice_negative_index_event idle [VNum 1] [] (VNum 2)).
  - reflexivity.
  - simpl. lia.
Defined.
End negative_index.

Section sort_extras.
Import PArray.



End sort_extras.
